(** * Prefect events API, schema and serialization utilities: a shallow embedding

    The development follows the Python sources

    - [src/prefect/server/api/events.py] (ingestion, query, pagination and
      counting endpoints),
    - [src/prefect/orion/utilities/schemas.py] ([subclass_model]),
    - [prefect/utilities/serialize.py] ([AESCipher], [serialize],
      [deserialize], [patch_json]),
    - [tests/events/server/actions/test_suspending_flow_run.py].

    Of the libraries these import, [base64], UTF-8, [hashlib.sha256] and
    the AES block cipher are written out from their definitions; the
    pickler, the event backends and the JSON runtime are interfaces.

    Part I holds the embedding, Part II the properties. *)

From Stdlib Require Import ZArith List String Ascii Lia Bool Btauto SpecFloat.
From stdpp Require Import base option list gmap strings.

#[local] Open Scope Z_scope.
#[local] Unset Default Proof Using.
#[local] Set Warnings "-register-all".

(* ===================================================================== *)
(** * Part I. The embedding                                               *)
(* ===================================================================== *)

(** ** Python values shared by all modules *)

Module Py.

(** A Python [str] is a sequence of code points, a [bytes] object a sequence
    of integers in [0, 256). *)
Definition codepoint := Z.
Definition str := list codepoint.
Definition bytes := list Z.

Definition is_byte (b : Z) : Prop := 0 <= b < 256.

Definition is_ascii (c : Z) : Prop := 0 <= c < 128.

(** A string literal of the source, as a [str]. *)
Definition lit (s : string) : str :=
  map (fun a => Z.of_N (N_of_ascii a)) (list_ascii_of_string s).

(** [bytes.fromhex] on lower-case digits, for values the standards print in
    hexadecimal. *)
Definition hex_digit (a : ascii) : Z :=
  let n := Z.of_N (N_of_ascii a) in
  if (48 <=? n) && (n <=? 57) then n - 48
  else if (97 <=? n) && (n <=? 102) then n - 87
  else 0.

Fixpoint fromhex (s : string) : bytes :=
  match s with
  | String a (String b s') => 16 * hex_digit a + hex_digit b :: fromhex s'
  | _ => []
  end.

(** Exceptions the modelled code raises or catches. *)
Inductive exn : Type :=
| HTTPException (status_code : Z) (detail : option str)
| UnicodeEncodeError
| UnicodeDecodeError
| BinasciiError
| TypeError
| ValueError
| ValidationError
| InvalidTokenError
| InvalidEventCountParameters (message : str)
| RequestValidationError
| OtherError (name : string).

(** The outcome of a call: a value or a raised exception. *)
Inductive result (A : Type) : Type :=
| Return (a : A)
| Raise (e : exn).
Arguments Return {A} a.
Arguments Raise {A} e.

#[global] Instance result_ret : MRet result := fun A a => Return a.
#[global] Instance result_bind : MBind result := fun A B f m =>
  match m with
  | Return a => f a
  | Raise e => Raise e
  end.
#[global] Instance result_fmap : FMap result := fun A B f m =>
  match m with
  | Return a => Return (f a)
  | Raise e => Raise e
  end.

(** [try: m except Exception: raise e]. *)
Definition try_except_all {A} (m : result A) (e : exn) : result A :=
  match m with
  | Return a => Return a
  | Raise _ => Raise e
  end.

(** An optional value that raises [e] when absent. *)
Definition or_raise {A} (o : option A) (e : exn) : result A :=
  match o with
  | Some a => Return a
  | None => Raise e
  end.

(** *** UTF-8, the default codec of [str.encode] and [bytes.decode] *)

Definition is_surrogate (c : Z) : bool := (0xD800 <=? c) && (c <=? 0xDFFF).

Definition utf8_encode_char (c : codepoint) : option bytes :=
  if c <? 0 then None
  else if c <? 0x80 then Some [c]
  else if c <? 0x800 then Some [0xC0 + c / 64; 0x80 + c mod 64]
  else if c <? 0x10000 then
    if is_surrogate c then None
    else Some [0xE0 + c / 4096; 0x80 + (c / 64) mod 64; 0x80 + c mod 64]
  else if c <? 0x110000 then
    Some [0xF0 + c / 262144; 0x80 + (c / 4096) mod 64;
          0x80 + (c / 64) mod 64; 0x80 + c mod 64]
  else None.

Fixpoint utf8_encode (s : str) : option bytes :=
  match s with
  | [] => Some []
  | c :: s' =>
      match utf8_encode_char c, utf8_encode s' with
      | Some bs, Some r => Some (bs ++ r)
      | _, _ => None
      end
  end.

(** [lo <= b <= hi]. *)
Definition between (lo hi b : Z) : bool := (lo <=? b) && (b <=? hi).
Definition is_cont (b : Z) : bool := between 0x80 0xBF b.

(** Strict decoding: only the well-formed byte sequences of the Unicode
    standard (no overlong forms, no surrogates, nothing above U+10FFFF). *)
Fixpoint utf8_decode (bs : bytes) : option str :=
  match bs with
  | [] => Some []
  | b0 :: r0 =>
      if between 0 0x7F b0 then cons b0 <$> utf8_decode r0
      else if between 0xC2 0xDF b0 then
        match r0 with
        | b1 :: r1 =>
            if is_cont b1
            then cons ((b0 - 0xC0) * 64 + (b1 - 0x80)) <$> utf8_decode r1
            else None
        | _ => None
        end
      else if between 0xE0 0xEF b0 then
        match r0 with
        | b1 :: b2 :: r2 =>
            if between (if b0 =? 0xE0 then 0xA0 else 0x80)
                       (if b0 =? 0xED then 0x9F else 0xBF) b1
               && is_cont b2
            then cons ((b0 - 0xE0) * 4096 + (b1 - 0x80) * 64 + (b2 - 0x80))
                   <$> utf8_decode r2
            else None
        | _ => None
        end
      else if between 0xF0 0xF4 b0 then
        match r0 with
        | b1 :: b2 :: b3 :: r3 =>
            if between (if b0 =? 0xF0 then 0x90 else 0x80)
                       (if b0 =? 0xF4 then 0x8F else 0xBF) b1
               && is_cont b2 && is_cont b3
            then cons ((b0 - 0xF0) * 262144 + (b1 - 0x80) * 4096
                       + (b2 - 0x80) * 64 + (b3 - 0x80))
                   <$> utf8_decode r3
            else None
        | _ => None
        end
      else None
  end.

(** [s.encode()] and [b.decode()]. *)
Definition str_encode (s : str) : result bytes :=
  or_raise (utf8_encode s) UnicodeEncodeError.
Definition bytes_decode (b : bytes) : result str :=
  or_raise (utf8_decode b) UnicodeDecodeError.

(** *** Base64 ([base64.b64encode], [base64.b64decode]) *)

Definition BASE64_PAD : Z := 61.

(** The standard alphabet: value of a sextet -> character. *)
Definition table_b2a_base64 (v : Z) : Z :=
  if v <? 26 then 65 + v
  else if v <? 52 then 97 + (v - 26)
  else if v <? 62 then 48 + (v - 52)
  else if v =? 62 then 43
  else 47.

(** Character -> value of its sextet, [None] outside the alphabet. *)
Definition table_a2b_base64 (ch : Z) : option Z :=
  if between 65 90 ch then Some (ch - 65)
  else if between 97 122 ch then Some (ch - 97 + 26)
  else if between 48 57 ch then Some (ch - 48 + 52)
  else if ch =? 43 then Some 62
  else if ch =? 47 then Some 63
  else None.

Fixpoint b64encode (bs : bytes) : bytes :=
  match bs with
  | [] => []
  | [b0] =>
      [table_b2a_base64 (b0 / 4); table_b2a_base64 ((b0 mod 4) * 16);
       BASE64_PAD; BASE64_PAD]
  | [b0; b1] =>
      [table_b2a_base64 (b0 / 4);
       table_b2a_base64 ((b0 mod 4) * 16 + b1 / 16);
       table_b2a_base64 ((b1 mod 16) * 4); BASE64_PAD]
  | b0 :: b1 :: b2 :: rest =>
      table_b2a_base64 (b0 / 4)
      :: table_b2a_base64 ((b0 mod 4) * 16 + b1 / 16)
      :: table_b2a_base64 ((b1 mod 16) * 4 + b2 / 64)
      :: table_b2a_base64 (b2 mod 64)
      :: b64encode rest
  end.

(** The non-strict decoder: characters outside the alphabet are skipped, a
    pad sequence that completes a quad ends the input, and a dangling
    partial quad is an error. [quad_pos] counts the sextets of the current
    quad, [leftchar] holds the bits not yet written out, [pads] the pad
    characters seen since the last sextet. *)
Fixpoint a2b_base64 (inp : bytes) (quad_pos : nat) (leftchar : Z) (pads : nat)
  : option bytes :=
  match inp with
  | [] => if Nat.eqb quad_pos 0 then Some [] else None
  | ch :: rest =>
      if ch =? BASE64_PAD then
        if Nat.leb 2 quad_pos && Nat.leb 4 (quad_pos + S pads) then Some []
        else a2b_base64 rest quad_pos leftchar
               (if Nat.leb 2 quad_pos then S pads else pads)
      else
        match table_a2b_base64 ch with
        | None => a2b_base64 rest quad_pos leftchar pads
        | Some v =>
            match quad_pos with
            | O => a2b_base64 rest 1 v 0
            | 1%nat =>
                cons (leftchar * 4 + v / 16) <$> a2b_base64 rest 2 (v mod 16) 0
            | 2%nat =>
                cons (leftchar * 16 + v / 4) <$> a2b_base64 rest 3 (v mod 4) 0
            | _ => cons (leftchar * 64 + v) <$> a2b_base64 rest 0 0 0
            end
        end
  end.

Definition b64decode (inp : bytes) : result bytes :=
  or_raise (a2b_base64 inp 0 0 0) BinasciiError.

End Py.

Import Py.

(** ** The events API ([src/prefect/server/api/events.py]) *)

Module Events.

(** What the module imports and this development does not define: the event
    schemas, the storage queries and the interactive page cap. *)
Class Backend : Type := {
  Event : Type;
  ReceivedEvent : Type;
  EventFilter : Type;
  EventCount : Type;
  Countable : Type;
  TimeUnit : Type;
  TimeUnit_day : TimeUnit;
  (** [event.receive()] *)
  receive : Event -> ReceivedEvent;
  (** [Event.parse_raw(event_json)], which raises on a malformed frame *)
  parse_raw : str -> option Event;
  (** [EventFilter()] *)
  EventFilter_default : EventFilter;
  (** [filter or EventFilter()] needs the truth value of a filter *)
  filter_truthy : EventFilter -> bool;
  INTERACTIVE_PAGE_SIZE : Z;
  query_events :
    EventFilter -> Z -> result (list ReceivedEvent * Z * option str);
  query_next_page : str -> result (list ReceivedEvent * Z * option str);
  count_events :
    EventFilter -> Countable -> TimeUnit -> SpecFloat.spec_float ->
    result (list EventCount)
}.

Section WithBackend.
Context `{B : Backend}.

(** Calls that leave the process, in the order they are made. *)
Inductive effect : Type :=
| WsAccept
| WsRecvText (frame : str)
| WsClosed (abnormal : bool)
| PublisherOpen
| PublisherClose
| Publish (e : ReceivedEvent)
| PublishBatch (es : list ReceivedEvent)
| QueryEvents (f : EventFilter) (page_size : Z)
| QueryNextPage (page_token : str)
| CountEvents (f : EventFilter) (c : Countable) (u : TimeUnit)
    (i : SpecFloat.spec_float).

Definition trace := list effect.

(** Modelled from the spec: [messaging.publish] and
    [publisher.publish_event] of [prefect.server.events.messaging], which is
    not part of the sources at hand; publishing a batch publishes each of
    its events, in the order of the sequence. *)
Definition published_by (e : effect) : list ReceivedEvent :=
  match e with
  | Publish ev => [ev]
  | PublishBatch evs => evs
  | _ => []
  end.
Definition published (tr : trace) : list ReceivedEvent :=
  flat_map published_by tr.

Definition HTTP_204_NO_CONTENT : Z := 204.
Definition HTTP_403_FORBIDDEN : Z := 403.
Definition HTTP_422_UNPROCESSABLE_ENTITY : Z := 422.

(** A response as the router sends it. *)
Record Response (A : Type) : Type := {
  status_code : Z;
  body : option A
}.
Arguments status_code {A} _.
Arguments body {A} _.

(** The status the framework answers with: the route's own status for a
    returned value, the exception's for an [HTTPException], 422 for a request
    that fails validation. *)
Definition response_status {A} (route_status : Z) (r : result A) : Z :=
  match r with
  | Return _ => route_status
  | Raise (HTTPException c _) => c
  | Raise RequestValidationError => HTTP_422_UNPROCESSABLE_ENTITY
  | Raise _ => 500
  end.

Record EventPage : Type := {
  events : list ReceivedEvent;
  total : Z;
  next_page : option str
}.

(** [create_events]: the list comprehension, then one [messaging.publish]. *)
Definition create_events (events : list Event) : trace * result unit :=
  ([PublishBatch (map receive events)], Return tt).

(** The route of [create_events]:
    [status_code=status.HTTP_204_NO_CONTENT, response_class=Response]. *)
Definition post_events (events : list Event) : trace * result (Response unit) :=
  let '(tr, r) := create_events events in
  (tr, (fun _ => {| status_code := HTTP_204_NO_CONTENT; body := None |}) <$> r).

(** How a streaming session ends on the client's side. *)
Inductive disconnect : Type :=
| NormalDisconnect
| AbnormalDisconnect.

(** Modelled from the spec: [subscriptions.NORMAL_DISCONNECT_EXCEPTIONS] of
    [prefect.server.utilities.subscriptions], which is not part of the
    sources at hand; the exceptions a client disconnect raises, normal or
    abnormal. *)
Definition NORMAL_DISCONNECT_EXCEPTIONS (e : exn) : bool :=
  match e with
  | OtherError "WebSocketDisconnect" | OtherError "ConnectionClosed"
  | OtherError "IOError" => true
  | _ => false
  end.

(** What reading past the last frame does: [iter_text] ends the iteration
    on a normal close, the transport raises on an abnormal one. *)
Definition end_of_stream (d : disconnect) : trace * result unit :=
  match d with
  | NormalDisconnect => ([WsClosed false], Return tt)
  | AbnormalDisconnect => ([WsClosed true], Raise (OtherError "ConnectionClosed"))
  end.

(** The body of [async for event_json in websocket.iter_text()]. *)
Fixpoint stream_loop (frames : list str) (d : disconnect)
  : trace * result unit :=
  match frames with
  | [] => end_of_stream d
  | event_json :: rest =>
      match parse_raw event_json with
      | None => ([WsRecvText event_json], Raise ValidationError)
      | Some event =>
          let '(tr, r) := stream_loop rest d in
          (WsRecvText event_json :: Publish (receive event) :: tr, r)
      end
  end.

(** [stream_events_in]: a session is the frames the client sends and the
    way it disconnects. *)
Definition stream_events_in (frames : list str) (d : disconnect)
  : trace * result unit :=
  let '(tr, r) := stream_loop frames d in
  (WsAccept :: PublisherOpen :: tr ++ [PublisherClose],
   match r with
   | Return _ => Return tt
   | Raise e => if NORMAL_DISCONNECT_EXCEPTIONS e then Return tt else Raise e
   end).

(** [verified_page_token]. *)
Definition verified_page_token (page_token : str) : result str :=
  page_token ←
    try_except_all
      (encoded ← str_encode page_token;
       raw ← b64decode encoded;
       bytes_decode raw)
      (HTTPException HTTP_403_FORBIDDEN None);
  match page_token with
  | [] => Raise (HTTPException HTTP_403_FORBIDDEN None)
  | _ => Return page_token
  end.

(** [generate_next_page_link]; [base_url] is [str(request.base_url)]. *)
Definition generate_next_page_link (base_url : str) (page_token : option str)
  : result (option str) :=
  match page_token with
  | None | Some [] => Return None
  | Some page_token =>
      encoded ← str_encode page_token;
      text ← bytes_decode (b64encode encoded);
      Return (Some (base_url ++ lit "api/events/filter/next"
                      ++ lit "?page-token=" ++ text))
  end.

(** The [limit] body parameter of [read_events]:
    [Body(INTERACTIVE_PAGE_SIZE, ge=0, le=INTERACTIVE_PAGE_SIZE, embed=True)].
    A default is not validated. *)
Definition validate_limit (limit : option Z) : result Z :=
  match limit with
  | None => Return INTERACTIVE_PAGE_SIZE
  | Some l =>
      if (0 <=? l) && (l <=? INTERACTIVE_PAGE_SIZE) then Return l
      else Raise RequestValidationError
  end.

(** [read_events], called with validated parameters. *)
Definition read_events (base_url : str) (filter : option EventFilter)
    (limit : Z) : trace * result EventPage :=
  let filter :=
    match filter with
    | Some f => if filter_truthy f then f else EventFilter_default
    | None => EventFilter_default
    end in
  ([QueryEvents filter limit],
   '(events, total, next_token) ← query_events filter limit;
   link ← generate_next_page_link base_url next_token;
   Return {| events := events; total := total; next_page := link |}).

(** The route [POST /events/filter]: validation, then the endpoint. *)
Definition post_events_filter (base_url : str) (filter : option EventFilter)
    (limit : option Z) : trace * result EventPage :=
  match validate_limit limit with
  | Raise e => ([], Raise e)
  | Return l => read_events base_url filter l
  end.

(** [read_account_events_page], called with a verified token. *)
Definition read_account_events_page (base_url : str) (page_token : str)
  : trace * result EventPage :=
  ([QueryNextPage page_token],
   '(events, total, next_token) ←
     match query_next_page page_token with
     | Raise InvalidTokenError => Raise (HTTPException HTTP_403_FORBIDDEN None)
     | r => r
     end;
   link ← generate_next_page_link base_url next_token;
   Return {| events := events; total := total; next_page := link |}).

(** The route [GET /events/filter/next]: the dependency
    [Depends(verified_page_token)] on the query value [page-token], then the
    endpoint. *)
Definition get_events_filter_next (base_url : str) (page_token : str)
  : trace * result EventPage :=
  match verified_page_token page_token with
  | Raise e => ([], Raise e)
  | Return t => read_account_events_page base_url t
  end.

(** 0.01 and 1.0 as binary64 values. *)
Definition float_0_01 : SpecFloat.spec_float :=
  SpecFloat.S754_finite false 0x147ae147ae147b (-59).
Definition float_1_0 : SpecFloat.spec_float :=
  SpecFloat.S754_finite false 0x10000000000000 (-52).

(** The [time_interval] body parameter of [count_account_events]:
    [Body(default=1.0, ge=0.01)]. *)
Definition validate_time_interval (time_interval : option SpecFloat.spec_float)
  : result SpecFloat.spec_float :=
  match time_interval with
  | None => Return float_1_0
  | Some x =>
      if SpecFloat.SFleb float_0_01 x then Return x
      else Raise RequestValidationError
  end.

(** [handle_event_count_request]. *)
Definition handle_event_count_request (filter : EventFilter)
    (countable : Countable) (time_unit : TimeUnit)
    (time_interval : SpecFloat.spec_float)
  : trace * result (list EventCount) :=
  ([CountEvents filter countable time_unit time_interval],
   match count_events filter countable time_unit time_interval with
   | Raise (InvalidEventCountParameters message) =>
       Raise (HTTPException HTTP_422_UNPROCESSABLE_ENTITY (Some message))
   | r => r
   end).

(** [count_account_events], called with validated parameters. *)
Definition count_account_events (filter : EventFilter) (countable : Countable)
    (time_unit : TimeUnit) (time_interval : SpecFloat.spec_float)
  : trace * result (list EventCount) :=
  handle_event_count_request filter countable time_unit time_interval.

(** The route [POST /events/count-by/{countable}]. *)
Definition post_events_count_by (filter : EventFilter) (countable : Countable)
    (time_unit : option TimeUnit)
    (time_interval : option SpecFloat.spec_float)
  : trace * result (list EventCount) :=
  match validate_time_interval time_interval with
  | Raise e => ([], Raise e)
  | Return i =>
      count_account_events filter countable
        (default TimeUnit_day time_unit) i
  end.

(** *** Vocabulary of the properties *)

(** The token's UTF-8 bytes are base64 for the UTF-8 bytes of [s]; a token
    is undecodable when it is that for no [s]: it cannot be encoded, or is
    not base64, or is base64 for bytes that are not text. *)
Definition base64_decodes_to (tok s : str) : Prop :=
  exists encoded raw,
    utf8_encode tok = Some encoded /\
    a2b_base64 encoded 0 0 0 = Some raw /\
    utf8_decode raw = Some s.



(** The frames of a session, each followed by the publication of its event. *)
Fixpoint frame_by_frame (frames : list str) (evs : list Event) : trace :=
  match frames, evs with
  | f :: frames', ev :: evs' =>
      WsRecvText f :: Publish (receive ev) :: frame_by_frame frames' evs'
  | _, _ => []
  end.

Definition abnormal (d : disconnect) : bool :=
  match d with NormalDisconnect => false | AbnormalDisconnect => true end.

End WithBackend.

(** A small in-memory backend for the examples: events are their own JSON
    text, the store holds one page, every continuation token but ["next"] is
    rejected, and counting rejects every request with a message. *)
Definition sample_backend : Backend := {|
  Event := str;
  ReceivedEvent := str;
  EventFilter := unit;
  EventCount := Z;
  Countable := unit;
  TimeUnit := unit;
  TimeUnit_day := tt;
  receive := fun e => e;
  parse_raw := fun s => match s with [] => None | _ => Some s end;
  EventFilter_default := tt;
  filter_truthy := fun _ => true;
  INTERACTIVE_PAGE_SIZE := 50;
  query_events := fun _ n => Return ([lit "e1"], 1, None);
  query_next_page := fun t =>
    if bool_decide (t = lit "next") then Return ([lit "e2"], 2, None)
    else Raise InvalidTokenError;
  count_events := fun _ _ _ _ =>
    Raise (InvalidEventCountParameters (lit "invalid time interval"))
|}.

End Events.

(** ** Automation actions
       ([tests/events/server/actions/test_suspending_flow_run.py]) *)

Module Actions.

#[local] Open Scope string_scope.

Definition Labels := gmap string string.

Inductive payload_value : Type :=
| PInt (n : Z)
| PText (s : string).

(** An event; a related resource is its labels, the role among them. *)
Record Event : Type := {
  event_id : string;
  occurred : Z;
  event : string;
  resource : gmap string string;
  related : list (gmap string string);
  payload : gmap string payload_value
}.
















(** The fixtures of the test, for a flow run [run_id] and a deployment
    [deployment_id]. *)
Section Fixtures.
Variables (run_id deployment_id invocation event_uuid : string) (now : Z).




End Fixtures.

End Actions.

(** ** Model subclassing ([src/prefect/orion/utilities/schemas.py]) *)

Module Schemas.

Section WithField.
(** What pydantic keeps about one field. *)
Context {ModelField : Type}.

(** [__fields__]: a dict, in insertion order. *)
Definition fields := list (string * ModelField).

(** A model class, as far as [subclass_model] reads and writes it. *)
Record BaseModel : Type := {
  __name__ : string;
  __fields__ : fields
}.

(** Classes are objects with identity: the interpreter's classes, by
    address. *)
#[local] Abbreviation classes := (gmap positive BaseModel).

(** The keys of a dict, [set(d)]. *)
Definition keys (d : fields) : gset string := list_to_set (d.*1).

(** [x or y] on an optional list: [None] and the empty list are falsy. *)
Definition list_or {A} (x : option (list A)) (y : list A) : list A :=
  match x with
  | None | Some [] => y
  | Some l => l
  end.

(** [x or y] on an optional string. *)
Definition string_or (x : option string) (y : string) : string :=
  match x with
  | None | Some EmptyString => y
  | Some n => n
  end.

(** [create_model(name, __base__=base)], as the docstring of
    [subclass_model] describes it: "Pydantic models use the [__fields__]
    attribute of their parent class to determine inherited fields". The new
    class is a fresh object. *)
Definition create_model (name : string) (base : positive) (h : classes)
  : option (positive * classes) :=
  b ← h !! base;
  let new_cls := fresh (dom h) in
  Some (new_cls, <[new_cls := {| __name__ := name; __fields__ := __fields__ b |}]> h).

(** [base.__fields__ = d]. *)
Definition set_fields (d : fields) (c : BaseModel) : BaseModel :=
  {| __name__ := __name__ c; __fields__ := d |}.

Definition subclass_model (base : positive) (name : option string)
    (include exclude : option (list string)) (h : classes)
  : option (positive * classes) :=
  b ← h !! base;
  let original_fields := __fields__ b in
  (* collect required field names *)
  let field_names : gset string :=
    list_to_set (list_or include (__fields__ b).*1) in
  let field_names := field_names ∖ list_to_set (list_or exclude []) in
  (* create model *)
  let h := alter (set_fields
                    (filter (fun kv => kv.1 ∈ field_names) (__fields__ b)))
                 base h in
  '(new_cls, h) ← create_model (string_or name (__name__ b)) base h;
  (* restore original __fields__ *)
  let h := alter (set_fields original_fields) base h in
  Some (new_cls, h).

(** *** Vocabulary of the properties *)

(** The field names [subclass_model] keeps: those of [include], or all of
    them when [include] is [None] or empty, without those of [exclude]. *)
Definition kept (include exclude : option (list string)) (k : string)
  : Prop :=
  match include with
  | None | Some [] => True
  | Some l => k ∈ l
  end /\
  match exclude with
  | None => True
  | Some l => k ∉ l
  end.

#[global] Instance kept_dec include exclude k :
  Decision (kept include exclude k).
Proof. unfold kept. destruct include as [[|]|], exclude; apply _. Defined.

(** The field names the first statement of C9 keeps: those of [include]
    whenever a list is given, all of them when it is [None], without those
    of [exclude]. *)
Definition kept_as_stated (include exclude : option (list string))
    (k : string) : Prop :=
  match include with
  | None => True
  | Some l => k ∈ l
  end /\
  match exclude with
  | None => True
  | Some l => k ∉ l
  end.

#[global] Instance kept_as_stated_dec include exclude k :
  Decision (kept_as_stated include exclude k).
Proof. unfold kept_as_stated. destruct include, exclude; apply _. Defined.

End WithField.

Arguments BaseModel : clear implicits.
Arguments fields : clear implicits.
Abbreviation classes F := (gmap positive (BaseModel F)).

(** A model with the fields [x] and [y], as in the docstring's example. *)
Definition Parent : BaseModel Z :=
  {| __name__ := "Parent"%string;
     __fields__ := [("x"%string, 1); ("y"%string, 2)] |}.

End Schemas.

(** ** The libraries behind [hashlib] and [Crypto]

    [hashlib.sha256] is SHA-256 of FIPS 180-4 and [Crypto.Cipher.AES] is
    the cipher of FIPS 197; both are written here from the standards, on
    bytes as integers. *)

Module SHA256.

(** Words are 32 bits wide; [+] wraps around. *)
Definition w32 (x : Z) : Z := x mod 2 ^ 32.
Definition add32 (x y : Z) : Z := w32 (x + y).

Definition ROTR (n x : Z) : Z :=
  Z.lor (Z.shiftr x n) (w32 (Z.shiftl x (32 - n))).
Definition SHR (n x : Z) : Z := Z.shiftr x n.

Definition Ch (x y z : Z) : Z :=
  Z.lxor (Z.land x y) (Z.land (Z.lxor x (2 ^ 32 - 1)) z).
Definition Maj (x y z : Z) : Z :=
  Z.lxor (Z.lxor (Z.land x y) (Z.land x z)) (Z.land y z).
Definition Sigma0 (x : Z) : Z :=
  Z.lxor (Z.lxor (ROTR 2 x) (ROTR 13 x)) (ROTR 22 x).
Definition Sigma1 (x : Z) : Z :=
  Z.lxor (Z.lxor (ROTR 6 x) (ROTR 11 x)) (ROTR 25 x).
Definition sigma0 (x : Z) : Z :=
  Z.lxor (Z.lxor (ROTR 7 x) (ROTR 18 x)) (SHR 3 x).
Definition sigma1 (x : Z) : Z :=
  Z.lxor (Z.lxor (ROTR 17 x) (ROTR 19 x)) (SHR 10 x).

(** The constants are the first 32 bits of the fractional parts of the
    square roots of the first 8 primes and of the cube roots of the first
    64. *)
Definition is_prime (n : Z) : bool :=
  forallb (fun d => negb (n mod Z.of_nat d =? 0)) (seq 2 (Z.to_nat n - 2)).

Definition primes : list Z :=
  Eval vm_compute in filter (fun n => is_prime n) (map Z.of_nat (seq 2 310)).

(** The largest [r] below [2 ^ n] with [r ^ 3 <= x], bit by bit. *)
Fixpoint cube_root (n : nat) (x r : Z) : Z :=
  match n with
  | O => r
  | S n' =>
      let r' := r + 2 ^ Z.of_nat n' in
      cube_root n' x (if r' ^ 3 <=? x then r' else r)
  end.

Definition K : list Z :=
  Eval vm_compute in map (fun p => w32 (cube_root 36 (p * 2 ^ 96) 0)) primes.

Record state : Type := State {
  h0 : Z; h1 : Z; h2 : Z; h3 : Z; h4 : Z; h5 : Z; h6 : Z; h7 : Z
}.

Definition initial_hash (i : nat) : Z :=
  w32 (Z.sqrt (nth i primes 0 * 2 ^ 64)).

Definition H0 : state :=
  Eval vm_compute in
    State (initial_hash 0) (initial_hash 1) (initial_hash 2) (initial_hash 3)
          (initial_hash 4) (initial_hash 5) (initial_hash 6) (initial_hash 7).

(** Big-endian words of a block, and the bytes of a word. *)
Fixpoint be_words (block : list Z) : list Z :=
  match block with
  | b0 :: b1 :: b2 :: b3 :: block' =>
      w32 (((b0 * 256 + b1) * 256 + b2) * 256 + b3) :: be_words block'
  | _ => []
  end.

Definition be_bytes (x : Z) : list Z :=
  [(x / 2 ^ 24) mod 256; (x / 2 ^ 16) mod 256; (x / 2 ^ 8) mod 256; x mod 256].

(** The message schedule: [n] more words after those of [w], the latest
    first. *)
Fixpoint schedule (n : nat) (w : list Z) : list Z :=
  match n with
  | O => w
  | S n' =>
      schedule n'
        (add32 (add32 (add32 (sigma1 (nth 1 w 0)) (nth 6 w 0))
                  (sigma0 (nth 14 w 0))) (nth 15 w 0) :: w)
  end.

Definition round (s : state) (kw : Z * Z) : state :=
  let t1 := add32 (add32 (add32 (add32 (h7 s) (Sigma1 (h4 s)))
                            (Ch (h4 s) (h5 s) (h6 s))) kw.1) kw.2 in
  let t2 := add32 (Sigma0 (h0 s)) (Maj (h0 s) (h1 s) (h2 s)) in
  State (add32 t1 t2) (h0 s) (h1 s) (h2 s) (add32 (h3 s) t1)
        (h4 s) (h5 s) (h6 s).

Definition compress (s : state) (block : list Z) : state :=
  let w := rev (schedule 48 (rev (be_words block))) in
  let t := fold_left round (zip K w) s in
  State (add32 (h0 s) (h0 t)) (add32 (h1 s) (h1 t)) (add32 (h2 s) (h2 t))
        (add32 (h3 s) (h3 t)) (add32 (h4 s) (h4 t)) (add32 (h5 s) (h5 t))
        (add32 (h6 s) (h6 t)) (add32 (h7 s) (h7 t)).

(** The message, a one bit, zeros up to 56 modulo 64, and the length in
    bits on eight bytes. *)
Definition pad (msg : list Z) : list Z :=
  let l := Z.of_nat (length msg) in
  let zeros := Z.to_nat ((55 - l) mod 64) in
  msg ++ [0x80] ++ replicate zeros 0
      ++ be_bytes ((8 * l) / 2 ^ 32) ++ be_bytes (8 * l).

Fixpoint blocks (n : nat) (s : state) (data : list Z) : state :=
  match n, data with
  | S n', _ :: _ => blocks n' (compress s (take 64 data)) (drop 64 data)
  | _, _ => s
  end.

Definition digest (msg : list Z) : list Z :=
  let s := blocks (length (pad msg)) H0 (pad msg) in
  be_bytes (h0 s) ++ be_bytes (h1 s) ++ be_bytes (h2 s) ++ be_bytes (h3 s)
  ++ be_bytes (h4 s) ++ be_bytes (h5 s) ++ be_bytes (h6 s) ++ be_bytes (h7 s).

End SHA256.

Module AES.

(** The field GF(2^8): the sum is [Z.lxor]; [xtime] multiplies by [x]
    modulo [x^8 + x^4 + x^3 + x + 1], and the product adds the shifted
    copies of [b] selected by the low [n] bits of [a]. *)
Definition xtime (b : Z) : Z :=
  if b <? 128 then 2 * b else Z.lxor (2 * b - 256) 0x1b.

Fixpoint gf_mul_bits (n : nat) (a b : Z) : Z :=
  match n with
  | O => 0
  | S n' =>
      Z.lxor (if Z.odd a then b else 0) (gf_mul_bits n' (a / 2) (xtime b))
  end.

Definition gf_mul (a b : Z) : Z := gf_mul_bits 8 a b.

(** The inverse of a non-zero byte is its 254th power; zero is mapped to
    itself. *)
Definition gf_inv (b : Z) : Z := Pos.iter_op gf_mul 254 b.

(** The S-box is the inverse followed by an affine map on the bits. *)
Definition rotl8 (b n : Z) : Z :=
  Z.lor (Z.shiftl b n mod 256) (Z.shiftr b (8 - n)).

Definition sbox (b : Z) : Z :=
  let i := gf_inv b in
  Z.lxor (Z.lxor (Z.lxor (Z.lxor (Z.lxor i (rotl8 i 1)) (rotl8 i 2))
                    (rotl8 i 3)) (rotl8 i 4)) 0x63.

Definition inv_sbox (b : Z) : Z :=
  gf_inv (Z.lxor (Z.lxor (Z.lxor (rotl8 b 1) (rotl8 b 3)) (rotl8 b 6)) 0x05).

(** The state is the block, byte [r + 4c] being row [r] of column [c]. *)
Definition SubBytes (s : list Z) : list Z := map sbox s.
Definition InvSubBytes (s : list Z) : list Z := map inv_sbox s.

Definition ShiftRows (s : list Z) : list Z :=
  match s with
  | [s0; s1; s2; s3; s4; s5; s6; s7; s8; s9; s10; s11; s12; s13; s14; s15] =>
      [s0; s5; s10; s15; s4; s9; s14; s3; s8; s13; s2; s7; s12; s1; s6; s11]
  | _ => s
  end.

Definition InvShiftRows (s : list Z) : list Z :=
  match s with
  | [s0; s1; s2; s3; s4; s5; s6; s7; s8; s9; s10; s11; s12; s13; s14; s15] =>
      [s0; s13; s10; s7; s4; s1; s14; s11; s8; s5; s2; s15; s12; s9; s6; s3]
  | _ => s
  end.

Definition sum4 (a b c d : Z) : Z := Z.lxor (Z.lxor (Z.lxor a b) c) d.

Definition mix_column (a0 a1 a2 a3 : Z) : list Z :=
  [sum4 (gf_mul 2 a0) (gf_mul 3 a1) a2 a3;
   sum4 a0 (gf_mul 2 a1) (gf_mul 3 a2) a3;
   sum4 a0 a1 (gf_mul 2 a2) (gf_mul 3 a3);
   sum4 (gf_mul 3 a0) a1 a2 (gf_mul 2 a3)].

Definition inv_mix_column (a0 a1 a2 a3 : Z) : list Z :=
  [sum4 (gf_mul 14 a0) (gf_mul 11 a1) (gf_mul 13 a2) (gf_mul 9 a3);
   sum4 (gf_mul 9 a0) (gf_mul 14 a1) (gf_mul 11 a2) (gf_mul 13 a3);
   sum4 (gf_mul 13 a0) (gf_mul 9 a1) (gf_mul 14 a2) (gf_mul 11 a3);
   sum4 (gf_mul 11 a0) (gf_mul 13 a1) (gf_mul 9 a2) (gf_mul 14 a3)].

Fixpoint columns (f : Z -> Z -> Z -> Z -> list Z) (s : list Z) : list Z :=
  match s with
  | a0 :: a1 :: a2 :: a3 :: s' => f a0 a1 a2 a3 ++ columns f s'
  | _ => s
  end.

Definition MixColumns (s : list Z) : list Z := columns mix_column s.
Definition InvMixColumns (s : list Z) : list Z := columns inv_mix_column s.

Definition AddRoundKey (s k : list Z) : list Z := zip_with Z.lxor s k.

(** The key schedule. A word is four bytes. *)
Definition xor_word (a b : list Z) : list Z := zip_with Z.lxor a b.

Definition RotWord (w : list Z) : list Z :=
  match w with
  | b0 :: w' => w' ++ [b0]
  | [] => []
  end.

Definition SubWord (w : list Z) : list Z := map sbox w.

(** [Rcon[j]] for [1 <= j]: the powers of [x]. *)
Fixpoint Rcon (j : nat) : Z :=
  match j with
  | O => 0
  | 1%nat => 1
  | S j' => xtime (Rcon j')
  end.

Fixpoint words (key : list Z) : list (list Z) :=
  match key with
  | b0 :: b1 :: b2 :: b3 :: key' => [b0; b1; b2; b3] :: words key'
  | _ => []
  end.

(** [KeyExpansion]: [n] more words after the [i] words of [w]. *)
Fixpoint expand (Nk : nat) (n i : nat) (w : list (list Z)) : list (list Z) :=
  match n with
  | O => w
  | S n' =>
      let temp := nth (i - 1) w [] in
      let temp :=
        if Nat.eqb (i mod Nk) 0
        then xor_word (SubWord (RotWord temp)) [Rcon (i / Nk); 0; 0; 0]
        else if Nat.ltb 6 Nk && Nat.eqb (i mod Nk) 4 then SubWord temp
        else temp in
      expand Nk n' (S i) (w ++ [xor_word (nth (i - Nk) w []) temp])
  end.

Fixpoint round_keys (w : list (list Z)) : list (list Z) :=
  match w with
  | w0 :: w1 :: w2 :: w3 :: w' => (w0 ++ w1 ++ w2 ++ w3) :: round_keys w'
  | _ => []
  end.

Definition KeyExpansion (key : list Z) : list (list Z) :=
  let Nk := (length key / 4)%nat in
  let Nr := (Nk + 6)%nat in
  round_keys (expand Nk (4 * (Nr + 1) - Nk) Nk (words key)).

(** The rounds after the first [AddRoundKey], and their inverse. *)
Fixpoint rounds (ks : list (list Z)) (s : list Z) : list Z :=
  match ks with
  | [] => s
  | [k] => AddRoundKey (ShiftRows (SubBytes s)) k
  | k :: ks' =>
      rounds ks' (AddRoundKey (MixColumns (ShiftRows (SubBytes s))) k)
  end.

Fixpoint inv_rounds (ks : list (list Z)) (s : list Z) : list Z :=
  match ks with
  | [] => s
  | [k] => InvSubBytes (InvShiftRows (AddRoundKey s k))
  | k :: ks' =>
      InvSubBytes (InvShiftRows (InvMixColumns
        (AddRoundKey (inv_rounds ks' s) k)))
  end.

Definition Cipher (ks : list (list Z)) (block : list Z) : list Z :=
  match ks with
  | k0 :: ks' => rounds ks' (AddRoundKey block k0)
  | [] => block
  end.

Definition InvCipher (ks : list (list Z)) (block : list Z) : list Z :=
  match ks with
  | k0 :: ks' => AddRoundKey (inv_rounds ks' block) k0
  | [] => block
  end.

Definition encrypt_block (key block : list Z) : list Z :=
  Cipher (KeyExpansion key) block.
Definition decrypt_block (key block : list Z) : list Z :=
  InvCipher (KeyExpansion key) block.

(** *** Vocabulary of the properties *)

Definition is_word (w : list Z) : Prop :=
  length w = 4%nat /\ Forall is_byte w.

Definition is_state (s : list Z) : Prop :=
  length s = 16%nat /\ Forall is_byte s.

(** The 256 bytes, and the test of being one. *)
Definition byte_range : list Z := map Z.of_nat (seq 0 256).

Definition byteb (x : Z) : bool := (0 <=? x) && (x <? 256).

End AES.

(** ** Encrypted pickles ([prefect/utilities/serialize.py]) *)

Module Serialize.

(** A value that is either a [str] or a [bytes] object; [_pad], [_unpad],
    [serialize] and [deserialize] test which one they hold. *)
Inductive pystring : Type :=
| PStr (s : str)
| PBytes (b : bytes).

(** [len(s)]. *)
Definition len (s : pystring) : Z :=
  match s with
  | PStr l | PBytes l => Z.of_nat (length l)
  end.

(** What the module imports from [hashlib] and [Crypto]: the digest, and
    AES on one 16-byte block under a key. [plaintext_of_str] is what
    [cipher.encrypt] does when it is handed a [str] instead of [bytes],
    which differs between the libraries that provide [Crypto]. The
    algorithms themselves are [SHA256] and [AES] above; the functions of
    this module depend on them through this interface only. *)
Class CryptoLib : Type := {
  sha256_digest : bytes -> bytes;
  aes_encrypt_block : bytes -> bytes -> bytes;
  aes_decrypt_block : bytes -> bytes -> bytes;
  plaintext_of_str : str -> result bytes
}.

(** What the module imports from [cloudpickle]. *)
Class Pickler : Type := {
  PyObject : Type;
  dumps : PyObject -> bytes;
  loads : bytes -> result PyObject
}.

(** [prefect.config.get('prefect', 'encryption_key')]. *)
Class Config : Type := {
  config_encryption_key : str
}.

Definition AES_block_size : nat := 16.
Definition AES_key_size : list nat := [16; 24; 32]%nat.

(** *** Vocabulary of the properties *)

Definition is_block (b : bytes) : Prop :=
  length b = AES_block_size /\ Forall is_byte b.

Definition is_key (k : bytes) : Prop :=
  In (length k) AES_key_size /\ Forall is_byte k.

(** What the development needs of the libraries: a digest is a key, and
    under a key, on 16-byte blocks, decryption undoes encryption and a
    block encrypts to a block. *)
Class CryptoLaws (L : CryptoLib) : Prop := {
  sha256_digest_is_key b : is_key (sha256_digest b);
  aes_decrypt_encrypt_block key b :
    is_key key -> is_block b ->
    aes_decrypt_block key (aes_encrypt_block key b) = b;
  aes_encrypt_block_is_block key b :
    is_key key -> is_block b -> is_block (aes_encrypt_block key b)
}.

Section WithLibraries.
Context `{L : CryptoLib} `{P : Pickler} `{C : Config}.

(** An [AES.new(key, AES.MODE_CBC, iv)] object; the key is 16, 24 or 32
    bytes long and the initialization vector one block. *)
Record CbcCipher : Type := {
  cbc_key : bytes;
  cbc_iv : bytes
}.

Definition AES_new (key iv : bytes) : result CbcCipher :=
  if existsb (Nat.eqb (length key)) AES_key_size
     && Nat.eqb (length iv) AES_block_size
  then Return {| cbc_key := key; cbc_iv := iv |}
  else Raise ValueError.

Definition xor_block (a b : bytes) : bytes := zip_with Z.lxor a b.

(** Cipher block chaining over at most [n] blocks. *)
Fixpoint cbc_encrypt_blocks (n : nat) (key prev data : bytes) : bytes :=
  match n, data with
  | S n', _ :: _ =>
      let c := aes_encrypt_block key
                 (xor_block (take AES_block_size data) prev) in
      c ++ cbc_encrypt_blocks n' key c (drop AES_block_size data)
  | _, _ => []
  end.

Fixpoint cbc_decrypt_blocks (n : nat) (key prev data : bytes) : bytes :=
  match n, data with
  | S n', _ :: _ =>
      let c := take AES_block_size data in
      xor_block (aes_decrypt_block key c) prev
      ++ cbc_decrypt_blocks n' key c (drop AES_block_size data)
  | _, _ => []
  end.

(** [cipher.encrypt(raw)] and [cipher.decrypt(enc)]: whole blocks only. *)
Definition cbc_encrypt (c : CbcCipher) (raw : pystring) : result bytes :=
  raw ← match raw with
        | PBytes b => Return b
        | PStr s => plaintext_of_str s
        end;
  if Nat.eqb (length raw mod AES_block_size) 0
  then Return (cbc_encrypt_blocks (length raw) (cbc_key c) (cbc_iv c) raw)
  else Raise ValueError.

Definition cbc_decrypt (c : CbcCipher) (enc : bytes) : result bytes :=
  if Nat.eqb (length enc mod AES_block_size) 0
  then Return (cbc_decrypt_blocks (length enc) (cbc_key c) (cbc_iv c) enc)
  else Raise ValueError.

(** [base64.b64decode] takes [bytes] or ASCII-only [str]. *)
Definition b64decode_any (s : pystring) : result bytes :=
  match s with
  | PBytes b => b64decode b
  | PStr s =>
      if forallb (fun c => (0 <=? c) && (c <? 128)) s then b64decode s
      else Raise ValueError
  end.

(** [s[:stop]] for a possibly negative [stop]. *)
Definition slice_until {A} (l : list A) (stop : Z) : list A :=
  let stop := if stop <? 0 then stop + Z.of_nat (length l) else stop in
  take (Z.to_nat stop) l.

(** [s[start:]] for a possibly negative [start]. *)
Definition slice_from {A} (l : list A) (start : Z) : list A :=
  let start := if start <? 0 then start + Z.of_nat (length l) else start in
  drop (Z.to_nat start) l.

(** [ord(c)], defined on strings of length one. *)
Definition ord (c : list Z) : result Z :=
  match c with
  | [x] => Return x
  | _ => Raise TypeError
  end.

Record AESCipher : Type := {
  bs : Z;
  key : bytes
}.

(** [AESCipher.__init__]. *)
Definition AESCipher_init (k : str) : result AESCipher :=
  encoded ← str_encode k;
  Return {| bs := 32; key := sha256_digest encoded |}.

(** [AESCipher._pad]; [chr(n)] and its encoding are the one character or
    byte [n], the pad being at most 32. *)
Definition _pad (self : AESCipher) (s : pystring) : pystring :=
  let n := bs self - len s mod bs self in
  let pad_chr := [n] in
  let padding := concat (replicate (Z.to_nat n) pad_chr) in
  match s with
  | PBytes b => PBytes (b ++ padding)
  | PStr t => PStr (t ++ padding)
  end.

(** [AESCipher._unpad]: [s[:-ord(s[len(s) - 1:])]]. *)
Definition _unpad (s : pystring) : result pystring :=
  match s with
  | PBytes b =>
      n ← ord (slice_from b (len s - 1)); Return (PBytes (slice_until b (- n)))
  | PStr t =>
      n ← ord (slice_from t (len s - 1)); Return (PStr (slice_until t (- n)))
  end.

(** [AESCipher.encrypt]; [iv] is what [Random.new().read(AES.block_size)]
    yields. *)
Definition encrypt (self : AESCipher) (iv : bytes) (raw : pystring)
  : result bytes :=
  let raw := _pad self raw in
  cipher ← AES_new (key self) iv;
  ct ← cbc_encrypt cipher raw;
  Return (b64encode (iv ++ ct)).

(** [AESCipher.decrypt]. *)
Definition decrypt (self : AESCipher) (enc : pystring) : result str :=
  enc ← b64decode_any enc;
  let iv := slice_until enc (Z.of_nat AES_block_size) in
  cipher ← AES_new (key self) iv;
  pt ← cbc_decrypt cipher (slice_from enc (Z.of_nat AES_block_size));
  unpadded ← _unpad (PBytes pt);
  match unpadded with
  | PBytes b => bytes_decode b
  | PStr t => Raise TypeError
  end.

(** [if encryption_key is None: encryption_key = prefect.config.get(...)]. *)
Definition resolve_key (encryption_key : option str) : str :=
  default config_encryption_key encryption_key.

(** [serialize]. *)
Definition serialize (obj : PyObject) (encryption_key : option str)
    (iv : bytes) : result str :=
  let encryption_key := resolve_key encryption_key in
  let serialized := PBytes (b64encode (dumps obj)) in
  serialized ←
    match encryption_key with
    | [] => Return serialized
    | _ =>
        cipher ← AESCipher_init encryption_key;
        PBytes <$> encrypt cipher iv serialized
    end;
  match serialized with
  | PBytes b => bytes_decode b
  | PStr t => Return t
  end.

(** [deserialize]. *)
Definition deserialize (serialized : pystring) (encryption_key : option str)
  : result PyObject :=
  let encryption_key := resolve_key encryption_key in
  serialized ←
    match serialized with
    | PStr t => PBytes <$> str_encode t
    | PBytes _ => Return serialized
    end;
  serialized ←
    match encryption_key with
    | [] => Return serialized
    | _ =>
        cipher ← AESCipher_init encryption_key;
        PStr <$> decrypt cipher serialized
    end;
  raw ← b64decode_any serialized;
  loads raw.

(** An object the pickler can take: it pickles to bytes and unpickles to
    itself. *)
Definition picklable (obj : PyObject) : Prop :=
  Forall is_byte (dumps obj) /\ loads (dumps obj) = Return obj.

End WithLibraries.

(** The libraries: [hashlib] with PyCryptodome, whose ciphers refuse
    [str]. *)
Definition pycryptodome : CryptoLib := {|
  sha256_digest := SHA256.digest;
  aes_encrypt_block := AES.encrypt_block;
  aes_decrypt_block := AES.decrypt_block;
  plaintext_of_str := fun _ => Raise TypeError
|}.

(** The same with PyCrypto, whose ciphers take a [str] as its UTF-8
    bytes. *)
Definition pycrypto : CryptoLib := {|
  sha256_digest := SHA256.digest;
  aes_encrypt_block := AES.encrypt_block;
  aes_decrypt_block := AES.decrypt_block;
  plaintext_of_str := str_encode
|}.

(** Stand-ins for the examples: the identity in place of the pickler, a
    configuration without a key, and a fixed initialization vector. *)
Definition sample_pickler : Pickler := {|
  PyObject := bytes;
  dumps := fun o => o;
  loads := fun b => Return b
|}.

Definition sample_config : Config := {| config_encryption_key := [] |}.

Definition sample_iv : bytes := replicate 16 7.

End Serialize.

(** ** The patched JSON codec ([patch_json] of
       [prefect/utilities/serialize.py]) *)

(** *** Python floats

    A [float] is a binary64 value, here a [spec_float]. The two operations
    the time types need are the true division of integers, which rounds
    the exact quotient once, to nearest with ties to even, and the product
    with a float, which rounds the exact product the same way. The values
    met in this module stay far inside the exponent range, so neither
    subnormal nor infinite results are produced by rounding. *)

Module Float64.

(** [n * 2 ^ k] for [0 <= k], [n] otherwise. *)
Definition shl (n k : Z) : Z := if 0 <=? k then n * 2 ^ k else n.

(** [floor (log2 (num / den))], for positive [num] and [den]. *)
Definition ilog2_ratio (num den : Z) : Z :=
  let k := Z.log2 num - Z.log2 den in
  if shl den k <=? shl num (- k) then k else k - 1.

(** The integer nearest to [n / d], ties to even, for [0 <= n], [0 < d]. *)
Definition div_nearest_even (n d : Z) : Z :=
  let q := n / d in
  let r := n mod d in
  if 2 * r <? d then q
  else if d <? 2 * r then q + 1
  else if Z.even q then q else q + 1.

(** The binary64 value nearest to [num / den], as a 53-bit mantissa and an
    exponent: [(m, e)] stands for [m * 2 ^ e]. *)
Definition round53 (num den : Z) : Z * Z :=
  let e := ilog2_ratio num den - 52 in
  let m := div_nearest_even (shl num (- e)) (shl den e) in
  if m =? 2 ^ 53 then (2 ^ 52, e + 1) else (m, e).

(** [a / b] on integers, [0 < b]. *)
Definition true_divide (a b : Z) : spec_float :=
  if a =? 0 then S754_zero false
  else let '(m, e) := round53 (Z.abs a) b in
       S754_finite (a <? 0) (Z.to_pos m) e.

(** [modf] on the magnitude [m * 2 ^ e]: the integral part, and the
    fractional part as a mantissa at exponent [e]. *)
Definition modf (m e : Z) : Z * Z :=
  if 0 <=? e then (m * 2 ^ e, 0)
  else (m / 2 ^ (- e), m mod 2 ^ (- e)).

End Float64.

(** *** Time values and the codec *)

Module PatchJson.
Import Float64.

(** Python objects, as far as the codec tells them apart. A [timedelta] is
    its total of microseconds; an object of any other class is given with
    what its [__json__] method returns, if it has one. *)
Inductive pyobj (DT : Type) : Type :=
| PyNone
| PyBool (b : bool)
| PyInt (n : Z)
| PyFloat (x : spec_float)
| PyStr (s : str)
| PyList (l : list (pyobj DT))
| PyDict (d : list (str * pyobj DT))
| PyDatetime (d : DT)
| PyTimedelta (microseconds : Z)
| PyObj (cls : string) (json_method : option (pyobj DT)).
Arguments PyNone {DT}.
Arguments PyBool {DT} b.
Arguments PyInt {DT} n.
Arguments PyFloat {DT} x.
Arguments PyStr {DT} s.
Arguments PyList {DT} l.
Arguments PyDict {DT} d.
Arguments PyDatetime {DT} d.
Arguments PyTimedelta {DT} microseconds.
Arguments PyObj {DT} cls json_method.

(** What the module imports and this development does not define:
    [datetime.isoformat], [dateutil.parser.parse], the import of a function
    by its qualified name and the instantiation of a registered class. *)
Class Runtime : Type := {
  datetime : Type;
  isoformat : datetime -> str;
  dateutil_parse : str -> result datetime;
  import_object : pyobj datetime -> result (pyobj datetime);
  instantiate :
    pyobj datetime -> list (str * pyobj datetime) -> result (pyobj datetime)
}.

(** JSON text, as the value it denotes. *)
Inductive json : Type :=
| JNull
| JBool (b : bool)
| JInt (n : Z)
| JFloat (x : spec_float)
| JStr (s : str)
| JArr (l : list json)
| JObj (members : list (str * json)).

Section WithRuntime.
Context `{R : Runtime}.

Abbreviation object := (pyobj datetime).
Abbreviation dict := (list (str * pyobj datetime)).

Definition us_per_second : Z := 1000000.
Definition us_per_day : Z := 86400 * us_per_second.

(** [t.total_seconds()]. *)
Definition total_seconds (microseconds : Z) : spec_float :=
  true_divide microseconds us_per_second.

(** A [timedelta] must keep its days within 999999999 of zero. *)
Definition microseconds_to_delta (us : Z) : result object :=
  if (-999999999 <=? us / us_per_day) && (us / us_per_day <=? 999999999)
  then Return (PyTimedelta us)
  else Raise (OtherError "OverflowError").

(** The whole microseconds to add for a fractional rest [fm * 2 ^ e] of a
    microsecond, [x] being the microseconds counted so far: to nearest, a
    half going to the side that makes the total even. *)
Definition round_leftover (fm e x : Z) : Z :=
  if 0 <=? e then 0
  else if 2 * fm <? 2 ^ (- e) then 0
  else if 2 ^ (- e) <? 2 * fm then 1
  else if Z.odd x then 1 else 0.

(** [datetime.timedelta(seconds=x)] for a float [x]: the integral seconds
    are counted exactly, the fraction is multiplied by 10^6 in floating
    point, and what is left of a microsecond is rounded. *)
Definition timedelta_of_float (x : spec_float) : result object :=
  match x with
  | S754_nan => Raise ValueError
  | S754_infinity _ => Raise (OtherError "OverflowError")
  | S754_zero _ => microseconds_to_delta 0
  | S754_finite s m e =>
      let '(intpart, fm) := modf (Z.pos m) e in
      let sofar := intpart * us_per_second in
      let magnitude :=
        if fm =? 0 then sofar
        else
          let '(m2, e2) := round53 (us_per_second * fm) (2 ^ (- e)) in
          let '(intpart2, fm2) := modf m2 e2 in
          sofar + intpart2 + round_leftover fm2 e2 (sofar + intpart2) in
      microseconds_to_delta (if s then - magnitude else magnitude)
  end.

(** [datetime.timedelta(seconds=v)]. *)
Definition timedelta_of_seconds (v : object) : result object :=
  match v with
  | PyInt n => microseconds_to_delta (n * us_per_second)
  | PyBool b => microseconds_to_delta (if b then us_per_second else 0)
  | PyFloat x => timedelta_of_float x
  | _ => Raise TypeError
  end.

(** [d[k] = v], [k in d] and [d[k]] on a dict in insertion order. *)
Fixpoint dict_set (k : str) (v : object) (d : dict) : dict :=
  match d with
  | [] => [(k, v)]
  | (k', v') :: d' =>
      if bool_decide (k' = k) then (k, v) :: d' else (k', v') :: dict_set k v d'
  end.

Fixpoint dict_get (k : str) (d : dict) : option object :=
  match d with
  | [] => None
  | (k', v) :: d' => if bool_decide (k' = k) then Some v else dict_get k d'
  end.

Fixpoint dict_pop (k : str) (d : dict) : dict :=
  match d with
  | [] => []
  | (k', v) :: d' => if bool_decide (k' = k) then d' else (k', v) :: dict_pop k d'
  end.

(** The state of the [json] module that [patch_json] changes:
    [json.JSONEncoder.default] and the object hook of
    [json._default_decoder]. *)
Record json_module : Type := {
  JSONEncoder_default : object -> result object;
  object_hook : option (dict -> result object)
}.

(** The module as imported: [default] raises [TypeError], no hook. *)
Definition json_unpatched : json_module := {|
  JSONEncoder_default := fun _ => Raise TypeError;
  object_hook := None
|}.

(** [encode_json], the replacement for [JSONEncoder.default]. *)
Definition encode_json (_encode_json_original : object -> result object)
    (obj : object) : result object :=
  match obj with
  (* call __json__ method *)
  | PyObj _ (Some j) => Return j
  (* encode datetimes *)
  | PyDatetime d => Return (PyDict [(lit "__datetime__", PyStr (isoformat d))])
  | PyTimedelta t =>
      Return (PyDict [(lit "__timedelta__", PyFloat (total_seconds t))])
  (* fallback on default *)
  | _ => _encode_json_original obj
  end.

(** [_default_object_hook]. *)
Definition _default_object_hook (dct : dict) : result object :=
  match dict_get (lit "__datetime__") dct with
  | Some (PyStr s) => PyDatetime <$> dateutil_parse s
  | Some _ => Raise TypeError
  | None =>
  match dict_get (lit "__timedelta__") dct with
  | Some v => timedelta_of_seconds v
  | None =>
  match dict_get (lit "__function__") dct with
  | Some f => import_object f
  | None =>
  match dict_get (lit "__prefect_type__") dct with
  | Some cls => instantiate cls (dict_pop (lit "__prefect_type__") dct)
  | None => Return (PyDict dct)
  end end end end.

(** [patch_json]. *)
Definition patch_json (m : json_module) : json_module := {|
  JSONEncoder_default := encode_json (JSONEncoder_default m);
  object_hook := Some _default_object_hook
|}.

(** [for x in l: f(x)], stopping at the first exception. *)
Fixpoint mapM {A B} (f : A -> result B) (l : list A) : result (list B) :=
  match l with
  | [] => Return []
  | x :: l' => y ← f x; ys ← mapM f l'; Return (y :: ys)
  end.

(** The encoder: the types JSON knows are written as they are, anything
    else goes through [default] and the result is encoded in its place.
    [depth] bounds the nesting, as the interpreter's recursion limit does. *)
Fixpoint encode (default : object -> result object) (depth : nat)
    (o : object) : result json :=
  match depth with
  | O => Raise (OtherError "RecursionError")
  | S depth' =>
      match o with
      | PyNone => Return JNull
      | PyBool b => Return (JBool b)
      | PyInt n => Return (JInt n)
      | PyFloat x => Return (JFloat x)
      | PyStr s => Return (JStr s)
      | PyList l => JArr <$> mapM (encode default depth') l
      | PyDict d =>
          JObj <$> mapM (fun kv => v ← encode default depth' kv.2;
                                   Return (kv.1, v)) d
      | _ => o' ← default o; encode default depth' o'
      end
  end.

(** The decoder: every JSON object becomes a dict, later members replacing
    earlier ones of the same name, and is handed to the hook if there is
    one. *)
Fixpoint decode (hook : option (dict -> result object)) (j : json)
  : result object :=
  match j with
  | JNull => Return PyNone
  | JBool b => Return (PyBool b)
  | JInt n => Return (PyInt n)
  | JFloat x => Return (PyFloat x)
  | JStr s => Return (PyStr s)
  | JArr l =>
      PyList <$>
        (fix decode_items (l : list json) : result (list object) :=
           match l with
           | [] => Return []
           | x :: l' =>
               y ← decode hook x; ys ← decode_items l'; Return (y :: ys)
           end) l
  | JObj members =>
      dct ←
        (fix decode_members (ms : list (str * json)) (acc : dict)
           : result dict :=
           match ms with
           | [] => Return acc
           | (k, x) :: ms' =>
               y ← decode hook x; decode_members ms' (dict_set k y acc)
           end) members [];
      match hook with
      | Some h => h dct
      | None => Return (PyDict dct)
      end
  end.

Definition recursion_limit : nat := 1000.

(** [json.dumps(obj)] and [json.loads(s)] with no other argument. *)
Definition dumps (m : json_module) (obj : object) : result json :=
  encode (JSONEncoder_default m) recursion_limit obj.

Definition loads (m : json_module) (s : json) : result object :=
  decode (object_hook m) s.

(** [json.loads(json.dumps(obj))]. *)
Definition round_trip (m : json_module) (obj : object) : result object :=
  s ← dumps m obj; loads m s.

(** *** Vocabulary of the properties *)




End WithRuntime.

(** A stand-in runtime for the examples: a [datetime] is held as its ISO
    text, nothing can be imported or instantiated. *)
Definition sample_runtime : Runtime := {|
  datetime := str;
  isoformat := fun d => d;
  dateutil_parse := fun s => Return s;
  import_object := fun _ => Raise (OtherError "ImportError");
  instantiate := fun _ _ => Raise (OtherError "KeyError")
|}.

End PatchJson.

(* ===================================================================== *)
(** * Part II. Properties                                                 *)
(* ===================================================================== *)

(** ** Codecs *)

Module PyFacts.

Ltac divmod_lia := Z.div_mod_to_equations; lia.

Lemma between_true lo hi b : lo <= b <= hi -> between lo hi b = true.
Proof. intros [? ?]. unfold between. apply andb_true_intro. split; apply Z.leb_le; lia. Qed.

Lemma between_false lo hi b : b < lo \/ hi < b -> between lo hi b = false.
Proof.
  intros H. unfold between. apply andb_false_iff.
  destruct H; [left | right]; apply Z.leb_gt; lia.
Qed.

Lemma between_spec lo hi b : between lo hi b = true <-> lo <= b <= hi.
Proof. unfold between. rewrite andb_true_iff, !Z.leb_le. tauto. Qed.

(** Decide the range tests of the goal by arithmetic. *)
Ltac range_tests :=
  repeat match goal with
  | |- context [between ?lo ?hi ?b] =>
      first [ rewrite (between_true lo hi b) by lia
            | rewrite (between_false lo hi b) by lia ]
  end.

Lemma utf8_encode_char_bytes c bs :
  utf8_encode_char c = Some bs -> Forall is_byte bs.
Proof.
  unfold utf8_encode_char, is_surrogate, is_byte.
  repeat match goal with
  | |- context [Z.ltb ?a ?b] => destruct (Z.ltb_spec a b)
  | |- context [Z.leb ?a ?b] => destruct (Z.leb_spec a b)
  end; simpl; intros [= <-]; repeat constructor; divmod_lia.
Qed.

Lemma utf8_encode_bytes s bs : utf8_encode s = Some bs -> Forall is_byte bs.
Proof.
  revert bs. induction s as [|c s IH]; simpl; intros bs.
  - intros [= <-]. constructor.
  - destruct (utf8_encode_char c) as [b|] eqn:Hc; [|discriminate].
    destruct (utf8_encode s) as [r|]; [|discriminate].
    intros [= <-]. apply Forall_app. split; eauto using utf8_encode_char_bytes.
Qed.

(** One step of the decoder, with the tail left folded. *)
Lemma utf8_decode_cons b0 r0 :
  utf8_decode (b0 :: r0) =
  ltac:(let t := eval cbn [utf8_decode] in (utf8_decode (b0 :: r0)) in exact t).
Proof. reflexivity. Qed.

Ltac range_step :=
  match goal with
  | |- context [between ?lo ?hi ?b] =>
      first [ rewrite (between_true lo hi b) by lia
            | rewrite (between_false lo hi b) by lia ]
  end; cbv beta iota.

(** Decoding the encoding of one code point gives it back. *)
Lemma utf8_decode_encode_char c bs rest :
  utf8_encode_char c = Some bs ->
  utf8_decode (bs ++ rest) = cons c <$> utf8_decode rest.
Proof.
  unfold utf8_encode_char, is_surrogate.
  repeat match goal with
  | |- context [Z.ltb ?a ?b] => destruct (Z.ltb_spec a b)
  | |- context [Z.leb ?a ?b] => destruct (Z.leb_spec a b)
  end; simpl andb; cbv iota; try discriminate; intros [= <-];
  cbn [app]; rewrite utf8_decode_cons; unfold is_cont;
  Z.div_mod_to_equations;
  repeat range_step;
  repeat match goal with
  | |- context [Z.eqb ?a ?b] => destruct (Z.eqb_spec a b)
  end;
  repeat range_step; cbn [andb];
  (f_equal; f_equal; lia).
Qed.

Theorem utf8_decode_encode s bs :
  utf8_encode s = Some bs -> utf8_decode bs = Some s.
Proof.
  revert bs. induction s as [|c s IH]; simpl; intros bs.
  - intros [= <-]. reflexivity.
  - destruct (utf8_encode_char c) as [b|] eqn:Hc; [|discriminate].
    destruct (utf8_encode s) as [r|]; [|discriminate].
    intros [= <-]. rewrite (utf8_decode_encode_char _ _ _ Hc), (IH r eq_refl).
    reflexivity.
Qed.

(** *** Base64 *)

Lemma table_a2b_b2a v :
  0 <= v < 64 -> table_a2b_base64 (table_b2a_base64 v) = Some v.
Proof.
  intros Hv. unfold table_b2a_base64.
  repeat match goal with
  | |- context [Z.ltb ?a ?b] => destruct (Z.ltb_spec a b)
  | |- context [Z.eqb ?a ?b] => destruct (Z.eqb_spec a b)
  end; cbv beta iota; unfold table_a2b_base64;
  repeat range_step; try reflexivity; try (f_equal; lia).
Qed.

Lemma table_b2a_range v :
  0 <= v < 64 ->
  0 <= table_b2a_base64 v < 128 /\ table_b2a_base64 v <> BASE64_PAD.
Proof.
  intros Hv. unfold table_b2a_base64, BASE64_PAD.
  repeat match goal with
  | |- context [Z.ltb ?a ?b] => destruct (Z.ltb_spec a b)
  | |- context [Z.eqb ?a ?b] => destruct (Z.eqb_spec a b)
  end; lia.
Qed.

(** One alphabet character moves the decoder one sextet forward. *)
Lemma a2b_base64_sextet v rest q l p :
  0 <= v < 64 ->
  a2b_base64 (table_b2a_base64 v :: rest) q l p =
  match q with
  | O => a2b_base64 rest 1 v 0
  | 1%nat => cons (l * 4 + v / 16) <$> a2b_base64 rest 2 (v mod 16) 0
  | 2%nat => cons (l * 16 + v / 4) <$> a2b_base64 rest 3 (v mod 4) 0
  | _ => cons (l * 64 + v) <$> a2b_base64 rest 0 0 0
  end.
Proof.
  intros Hv. cbn [a2b_base64].
  destruct (table_b2a_range v Hv) as [_ Hpad].
  destruct (Z.eqb_spec (table_b2a_base64 v) BASE64_PAD); [contradiction|].
  rewrite table_a2b_b2a by assumption. reflexivity.
Qed.

(** A pad character either closes the quad or is counted and skipped. *)
Lemma a2b_base64_pad rest q l p :
  a2b_base64 (BASE64_PAD :: rest) q l p =
  if Nat.leb 2 q && Nat.leb 4 (q + S p) then Some []
  else a2b_base64 rest q l (if Nat.leb 2 q then S p else p).
Proof. cbn [a2b_base64]. rewrite Z.eqb_refl. reflexivity. Qed.

Ltac sextets :=
  cbn [b64encode];
  repeat (rewrite a2b_base64_sextet by divmod_lia; cbv beta iota);
  repeat (rewrite a2b_base64_pad;
          cbn [Nat.leb Nat.add andb Nat.eqb]; cbv beta iota).

Lemma a2b_base64_b64encode_bounded n : forall bs,
  (length bs <= n)%nat -> Forall is_byte bs ->
  a2b_base64 (b64encode bs) 0 0 0 = Some bs.
Proof.
  unfold is_byte.
  induction n as [|n IH]; intros bs Hlen Hb.
  - destruct bs; [reflexivity | simpl in Hlen; lia].
  - destruct bs as [|b0 [|b1 [|b2 rest]]]; [reflexivity | | | ].
    + apply Forall_cons in Hb as [H0 _]. sextets.
      cbn [fmap option_fmap option_map]. do 2 f_equal. divmod_lia.
    + apply Forall_cons in Hb as [H0 Hb]. apply Forall_cons in Hb as [H1 _].
      sextets. cbn [fmap option_fmap option_map].
      f_equal. f_equal; [|f_equal]; divmod_lia.
    + apply Forall_cons in Hb as [H0 Hb]. apply Forall_cons in Hb as [H1 Hb].
      apply Forall_cons in Hb as [H2 Hb]. sextets.
      rewrite IH by (simpl in Hlen; assumption || lia).
      cbn [fmap option_fmap option_map].
      f_equal. f_equal; [|f_equal; [|f_equal]]; divmod_lia.
Qed.

(** [b64decode] inverts [b64encode] on every [bytes] value. *)
Theorem b64decode_b64encode bs :
  Forall is_byte bs -> b64decode (b64encode bs) = Return bs.
Proof.
  intros Hb. unfold b64decode.
  rewrite (a2b_base64_b64encode_bounded (length bs)) by auto. reflexivity.
Qed.

Lemma b64encode_ascii_bounded n : forall bs,
  (length bs <= n)%nat -> Forall is_byte bs -> Forall is_ascii (b64encode bs).
Proof.
  unfold is_byte, is_ascii.
  induction n as [|n IH]; intros bs Hlen Hb.
  - destruct bs; [constructor | simpl in Hlen; lia].
  - destruct bs as [|b0 [|b1 [|b2 rest]]]; [constructor | | | ].
    + apply Forall_cons in Hb as [H0 _]. cbn [b64encode].
      repeat (apply Forall_cons; split);
        try (apply table_b2a_range; divmod_lia);
        try (unfold BASE64_PAD; lia). constructor.
    + apply Forall_cons in Hb as [H0 Hb]. apply Forall_cons in Hb as [H1 _].
      cbn [b64encode].
      repeat (apply Forall_cons; split);
        try (apply table_b2a_range; divmod_lia);
        try (unfold BASE64_PAD; lia). constructor.
    + apply Forall_cons in Hb as [H0 Hb]. apply Forall_cons in Hb as [H1 Hb].
      apply Forall_cons in Hb as [H2 Hb]. cbn [b64encode].
      repeat (apply Forall_cons; split);
        try (apply table_b2a_range; divmod_lia).
      apply IH; [simpl in Hlen; lia | assumption].
Qed.

Lemma b64encode_ascii bs : Forall is_byte bs -> Forall is_ascii (b64encode bs).
Proof. apply (b64encode_ascii_bounded (length bs)). lia. Qed.

(** On ASCII text both directions of the codec are the identity. *)
Lemma utf8_encode_ascii s : Forall is_ascii s -> utf8_encode s = Some s.
Proof.
  unfold is_ascii. induction 1 as [|c s Hc _ IH]; [reflexivity|].
  cbn [utf8_encode]. rewrite IH. unfold utf8_encode_char.
  destruct (Z.ltb_spec c 0); [lia|]. destruct (Z.ltb_spec c 128); [|lia].
  reflexivity.
Qed.

Lemma utf8_decode_ascii s : Forall is_ascii s -> utf8_decode s = Some s.
Proof.
  unfold is_ascii. induction 1 as [|c s Hc _ IH]; [reflexivity|].
  cbn [utf8_decode]. rewrite between_true by lia. rewrite IH. reflexivity.
Qed.

(** *** The codecs on a few inputs *)

Example b64encode_hello : b64encode (lit "hello") = lit "aGVsbG8=".
Proof. reflexivity. Qed.

Example b64decode_skips_whitespace :
  b64decode (lit "aGVs bG8=") = Return (lit "hello").
Proof. reflexivity. Qed.

Example b64decode_incorrect_padding :
  b64decode (lit "aGVsb") = Raise BinasciiError.
Proof. reflexivity. Qed.

Example b64decode_nothing_but_noise : b64decode (lit "!!!") = Return [].
Proof. reflexivity. Qed.

Example utf8_encode_three_widths :
  utf8_encode [0xE9; 0x20AC; 0x1F600]
  = Some [0xC3; 0xA9; 0xE2; 0x82; 0xAC; 0xF0; 0x9F; 0x98; 0x80].
Proof. reflexivity. Qed.

Example utf8_encode_lone_surrogate : str_encode [0xD800] = Raise UnicodeEncodeError.
Proof. reflexivity. Qed.

Example utf8_decode_overlong : bytes_decode [0xC0; 0x80] = Raise UnicodeDecodeError.
Proof. reflexivity. Qed.

Example utf8_decode_invalid_byte : bytes_decode [0xFF] = Raise UnicodeDecodeError.
Proof. reflexivity. Qed.

End PyFacts.

(** ** The events API *)

Module EventsFacts.
Import Events PyFacts.

Lemma verified_page_token_decodes tok s :
  base64_decodes_to tok s ->
  verified_page_token tok =
  match s with
  | [] => Raise (HTTPException HTTP_403_FORBIDDEN None)
  | _ => Return s
  end.
Proof.
  intros (encoded & raw & He & Hr & Hs).
  unfold verified_page_token, str_encode, b64decode, bytes_decode.
  rewrite He. cbn. rewrite Hr. cbn. rewrite Hs. cbn. reflexivity.
Qed.


(** The verifier only ever fails with 403. *)
Lemma verified_page_token_total tok :
  (exists s, s <> [] /\ verified_page_token tok = Return s) \/
  verified_page_token tok = Raise (HTTPException HTTP_403_FORBIDDEN None).
Proof.
  unfold verified_page_token, str_encode, b64decode, bytes_decode.
  destruct (utf8_encode tok) as [encoded|]; cbn; [|auto].
  destruct (a2b_base64 encoded 0 0 0) as [raw|]; cbn; [|auto].
  destruct (utf8_decode raw) as [[|c s]|]; cbn; auto.
  left. exists (c :: s). split; [discriminate | reflexivity].
Qed.

Section WithBackend.
Context `{B : Backend}.


(** C2 (amended). For every non-empty token [t] that [str.encode] accepts,
    [generate_next_page_link] returns the base URL followed by
    [api/events/filter/next?page-token=] and the base64 text of [t], and
    [verified_page_token] applied to that text returns [t]; for an absent or
    empty token no link is returned. *)
Theorem C2_page_token_round_trip (base_url : str) :
  (forall t encoded, t <> [] -> utf8_encode t = Some encoded ->
   generate_next_page_link base_url (Some t)
     = Return (Some (base_url ++ lit "api/events/filter/next"
                       ++ lit "?page-token=" ++ b64encode encoded)) /\
   verified_page_token (b64encode encoded) = Return t) /\
  generate_next_page_link base_url None = Return None /\
  generate_next_page_link base_url (Some []) = Return None.
Proof.
  split; [|split; reflexivity].
  intros t encoded Hne Ht.
  pose proof (utf8_encode_bytes _ _ Ht) as Hbytes.
  pose proof (b64encode_ascii _ Hbytes) as Hascii.
  split.
  - unfold generate_next_page_link, str_encode, bytes_decode.
    destruct t as [|c t]; [contradiction|].
    rewrite Ht. cbn [or_raise mbind result_bind].
    rewrite (utf8_decode_ascii _ Hascii). reflexivity.
  - assert (Hd : base64_decodes_to (b64encode encoded) t).
    { exists (b64encode encoded), encoded. repeat split.
      - apply utf8_encode_ascii, Hascii.
      - apply (a2b_base64_b64encode_bounded (length encoded)); auto.
      - apply utf8_decode_encode, Ht. }
    rewrite (verified_page_token_decodes _ _ Hd).
    destruct t; [contradiction | reflexivity].
Qed.

(** C5. A posted batch is answered with 204 and no body, and what is
    published is one received copy of each event, in the order submitted;
    the empty batch publishes nothing. *)
Theorem C5_create_events_publishes_batch (events : list Event) :
  snd (post_events events)
    = Return {| status_code := 204; body := None |} /\
  published (fst (post_events events)) = map receive events /\
  length (published (fst (post_events events))) = length events /\
  published (fst (post_events [])) = [].
Proof.
  unfold post_events, create_events, published. cbn.
  rewrite app_nil_r, length_map. auto.
Qed.

Lemma stream_loop_parsed frames evs d :
  Forall2 (fun f ev => parse_raw f = Some ev) frames evs ->
  stream_loop frames d
  = (frame_by_frame frames evs ++ fst (end_of_stream d),
     snd (end_of_stream d)).
Proof.
  induction 1 as [|f ev frames evs Hf _ IH]; cbn [stream_loop frame_by_frame].
  - destruct (end_of_stream d); reflexivity.
  - rewrite Hf, IH. reflexivity.
Qed.

Lemma published_app tr1 tr2 :
  published (tr1 ++ tr2) = published tr1 ++ published tr2.
Proof. unfold published. apply flat_map_app. Qed.

Lemma published_frame_by_frame frames evs :
  length frames = length evs ->
  published (frame_by_frame frames evs) = map receive evs.
Proof.
  revert evs. induction frames as [|f frames IH]; intros [|ev evs] Hl;
    try discriminate; [reflexivity|].
  cbn. f_equal. apply IH. simpl in Hl. lia.
Qed.

Lemma stream_loop_prefix pre evs post d :
  Forall2 (fun f ev => parse_raw f = Some ev) pre evs ->
  exists rest,
    fst (stream_loop (pre ++ post) d) = frame_by_frame pre evs ++ rest.
Proof.
  induction 1 as [|f ev pre evs Hf _ [rest IH]]; cbn [app stream_loop].
  - eexists. reflexivity.
  - rewrite Hf. destruct (stream_loop (pre ++ post) d) as [tr r] eqn:E.
    cbn in IH |- *. exists rest. rewrite IH. reflexivity.
Qed.

(** C6. In a streaming session every text frame is parsed as one event and
    that event, received, is published before the next frame is read; when
    the client disconnects, normally or abnormally, the session returns
    without an error; and whatever happens later in the session, the events
    of the frames read so far stay published. *)
Theorem C6_stream_events_in_session (frames : list str) (evs : list Event)
    (d : disconnect) :
  Forall2 (fun f ev => parse_raw f = Some ev) frames evs ->
  stream_events_in frames d
  = (WsAccept :: PublisherOpen :: frame_by_frame frames evs
       ++ [WsClosed (abnormal d); PublisherClose],
     Return tt) /\
  published (fst (stream_events_in frames d)) = map receive evs /\
  (forall later d',
     exists more,
       published (fst (stream_events_in (frames ++ later) d'))
       = map receive evs ++ more).
Proof.
  intros Hp. pose proof (Forall2_length _ _ _ Hp) as Hlen.
  assert (Hrun : stream_events_in frames d
    = (WsAccept :: PublisherOpen :: frame_by_frame frames evs
         ++ [WsClosed (abnormal d); PublisherClose], Return tt)).
  { unfold stream_events_in. rewrite (stream_loop_parsed _ _ _ Hp).
    destruct d; cbn [end_of_stream fst snd abnormal];
      rewrite <- app_assoc; reflexivity. }
  split; [exact Hrun|]. split.
  - rewrite Hrun. cbn [fst]. change (published (?a :: ?b :: ?l)) with (published l).
    rewrite published_app, published_frame_by_frame by exact Hlen.
    cbn. apply app_nil_r.
  - intros later d'.
    destruct (stream_loop_prefix frames evs later d' Hp) as [rest Hrest].
    unfold stream_events_in.
    destruct (stream_loop (frames ++ later) d') as [tr r].
    cbn [fst] in Hrest |- *. subst tr.
    change (published (?a :: ?b :: ?l)) with (published l).
    rewrite <- app_assoc, published_app,
      published_frame_by_frame by exact Hlen.
    eexists. reflexivity.
Qed.

(** C7. A [limit] outside [0, INTERACTIVE_PAGE_SIZE] is rejected at
    validation and no query is made; a limit inside the range is the page
    size queried; an omitted limit queries INTERACTIVE_PAGE_SIZE; so every
    query that is made asks for at most INTERACTIVE_PAGE_SIZE events. *)
Theorem C7_read_events_limit_capped (base_url : str)
    (filter : option EventFilter) :
  (forall l, ~ (0 <= l <= INTERACTIVE_PAGE_SIZE) ->
     post_events_filter base_url filter (Some l)
     = ([], Raise RequestValidationError)) /\
  (forall l, 0 <= l <= INTERACTIVE_PAGE_SIZE ->
     exists f, fst (post_events_filter base_url filter (Some l))
               = [QueryEvents f l]) /\
  (exists f, fst (post_events_filter base_url filter None)
             = [QueryEvents f INTERACTIVE_PAGE_SIZE]) /\
  (forall limit f n,
     In (QueryEvents f n) (fst (post_events_filter base_url filter limit)) ->
     n <= INTERACTIVE_PAGE_SIZE).
Proof.
  unfold post_events_filter, validate_limit, read_events.
  repeat split.
  - intros l Hl.
    destruct (Z.leb_spec 0 l), (Z.leb_spec l INTERACTIVE_PAGE_SIZE);
      cbn; try reflexivity. lia.
  - intros l [H0 H1].
    destruct (Z.leb_spec 0 l); [|lia].
    destruct (Z.leb_spec l INTERACTIVE_PAGE_SIZE); [|lia].
    cbn. eexists. reflexivity.
  - cbn. eexists. reflexivity.
  - intros [l|] f n.
    + destruct (Z.leb_spec 0 l), (Z.leb_spec l INTERACTIVE_PAGE_SIZE);
        cbn; try tauto.
      intros [[= _ <-]|[]]. assumption.
    + cbn. intros [[= _ <-]|[]]. lia.
Qed.

Lemma SFcompare_antisym x y :
  SFcompare y x = option_map CompOpp (SFcompare x y).
Proof.
  destruct x as [sx|sx| |sx mx ex], y as [sy|sy| |sy my ey]; cbn;
    try reflexivity; try (destruct sx; reflexivity);
    try (destruct sy; reflexivity);
    try (destruct sx, sy; reflexivity).
  destruct sx, sy; cbn; try reflexivity;
    rewrite (Z.compare_antisym ex ey);
    destruct (ex ?= ey); cbn; try reflexivity;
    rewrite (Pos.compare_cont_antisym mx my Eq); cbn;
    rewrite ?CompOpp_involutive; reflexivity.
Qed.

Lemma SFltb_not_SFleb x y : SFltb x y = true -> SFleb y x = false.
Proof.
  unfold SFltb, SFleb. rewrite (SFcompare_antisym x y).
  destruct (SFcompare x y) as [[]|]; cbn; congruence.
Qed.

(** C4. When counting fails with [InvalidEventCountParameters], the caller
    gets a 422 "unprocessable" error whose detail is the failure's message,
    both from [handle_event_count_request] and from the route; and a
    [time_interval] below 0.01 is turned down by request validation before
    anything is counted. *)
Theorem C4_invalid_count_parameters_unprocessable (filter : EventFilter)
    (countable : Countable) :
  (forall time_unit time_interval message,
     count_events filter countable time_unit time_interval
       = Raise (InvalidEventCountParameters message) ->
     snd (handle_event_count_request filter countable time_unit time_interval)
       = Raise (HTTPException 422 (Some message))) /\
  (forall time_unit time_interval message,
     SFleb float_0_01 time_interval = true ->
     count_events filter countable (default TimeUnit_day time_unit)
       time_interval
       = Raise (InvalidEventCountParameters message) ->
     snd (post_events_count_by filter countable time_unit (Some time_interval))
       = Raise (HTTPException 422 (Some message)) /\
     response_status 200
       (snd (post_events_count_by filter countable time_unit
               (Some time_interval))) = 422) /\
  (forall time_unit time_interval,
     SFltb time_interval float_0_01 = true ->
     post_events_count_by filter countable time_unit (Some time_interval)
       = ([], Raise RequestValidationError) /\
     response_status 200
       (snd (post_events_count_by filter countable time_unit
               (Some time_interval))) = 422).
Proof.
  split; [|split].
  - intros u i message Hc. unfold handle_event_count_request. cbn [snd].
    rewrite Hc. reflexivity.
  - intros u i message Hvalid Hc.
    assert (Hrun : snd (post_events_count_by filter countable u (Some i))
                   = Raise (HTTPException 422 (Some message))).
    { unfold post_events_count_by, validate_time_interval. rewrite Hvalid.
      unfold count_account_events, handle_event_count_request.
      cbn [snd]. rewrite Hc. reflexivity. }
    rewrite Hrun. split; reflexivity.
  - intros u i Hlow.
    assert (Hrun : post_events_count_by filter countable u (Some i)
                   = ([], Raise RequestValidationError)).
    { unfold post_events_count_by, validate_time_interval.
      rewrite (SFltb_not_SFleb _ _ Hlow). reflexivity. }
    rewrite Hrun. split; reflexivity.
Qed.

(** X1. A frame that does not parse ends the session with the parser's
    error: the events of the frames before it have been published, the
    frame itself and those after it publish nothing, no further frame is
    read, and the publisher is closed. *)
Theorem X1_stream_events_in_malformed_frame (frames : list str)
    (evs : list Event) (bad : str) (later : list str) (d : disconnect) :
  Forall2 (fun f ev => parse_raw f = Some ev) frames evs ->
  parse_raw bad = None ->
  stream_events_in (frames ++ bad :: later) d
  = (WsAccept :: PublisherOpen :: frame_by_frame frames evs
       ++ [WsRecvText bad; PublisherClose],
     Raise ValidationError) /\
  published (fst (stream_events_in (frames ++ bad :: later) d))
  = map receive evs.
Proof.
  intros Hp Hbad.
  assert (Hloop : stream_loop (frames ++ bad :: later) d
                  = (frame_by_frame frames evs ++ [WsRecvText bad],
                     Raise ValidationError)).
  { induction Hp as [|f ev frames evs Hf _ IH];
      cbn [app stream_loop frame_by_frame].
    - rewrite Hbad. reflexivity.
    - rewrite Hf, IH. reflexivity. }
  assert (Hrun : stream_events_in (frames ++ bad :: later) d
    = (WsAccept :: PublisherOpen :: frame_by_frame frames evs
         ++ [WsRecvText bad; PublisherClose], Raise ValidationError)).
  { unfold stream_events_in. rewrite Hloop. rewrite <- app_assoc. reflexivity. }
  split; [exact Hrun|]. rewrite Hrun. cbn [fst].
  change (published (?a :: ?b :: ?l)) with (published l).
  rewrite published_app, published_frame_by_frame
    by (eapply Forall2_length; exact Hp).
  cbn. apply app_nil_r.
Qed.


(** X3. Storage is asked for a next page only with a non-empty token the
    verifier has returned: for every page-token value, either the request is
    turned down with 403 before any query, or exactly one query is made, for
    the decoded token. *)
Theorem X3_unverified_token_never_reaches_storage (base_url tok : str) :
  get_events_filter_next base_url tok
    = ([], Raise (HTTPException HTTP_403_FORBIDDEN None)) \/
  exists s, s <> [] /\ base64_decodes_to tok s /\
            fst (get_events_filter_next base_url tok) = [QueryNextPage s].
Proof.
  unfold get_events_filter_next, verified_page_token, str_encode, b64decode,
    bytes_decode.
  destruct (utf8_encode tok) as [encoded|] eqn:He; cbn; [|auto].
  destruct (a2b_base64 encoded 0 0 0) as [raw|] eqn:Hr; cbn; [|auto].
  destruct (utf8_decode raw) as [[|c s]|] eqn:Hs; cbn; auto.
  right. exists (c :: s). split; [discriminate|]. split; [|reflexivity].
  exists encoded, raw. auto.
Qed.

(** X4. Writing the link fails in one case only, with [UnicodeEncodeError]:
    a non-empty token holding a code point [str.encode] refuses. *)
Theorem X4_next_page_link_failure (base_url : str) (page_token : option str)
    (e : exn) :
  generate_next_page_link base_url page_token = Raise e <->
  e = UnicodeEncodeError /\
  exists t, page_token = Some t /\ t <> [] /\ utf8_encode t = None.
Proof.
  unfold generate_next_page_link, str_encode, bytes_decode. split.
  - destruct page_token as [[|c t]|]; try discriminate.
    destruct (utf8_encode (c :: t)) as [encoded|] eqn:Ht;
      cbn [or_raise mbind result_bind].
    + rewrite (utf8_decode_ascii _
                 (b64encode_ascii _ (utf8_encode_bytes _ _ Ht))).
      discriminate.
    + intros [= <-]. split; [reflexivity|]. exists (c :: t).
      repeat split; [discriminate | exact Ht].
  - intros (-> & t & -> & Hne & Ht). destruct t as [|c t]; [contradiction|].
    rewrite Ht. reflexivity.
Qed.

End WithBackend.

(** *** The properties on the sample backend *)


(** The decoder is the lenient one: characters outside the base64 alphabet
    are skipped, so a token with a stray space still verifies. *)
Example verified_page_token_skips_noise :
  verified_page_token (lit "bmV4 dA==") = Return (lit "next").
Proof. reflexivity. Qed.

Example verified_page_token_empty :
  verified_page_token [] = Raise (HTTPException 403 None).
Proof. reflexivity. Qed.

Example verified_page_token_not_text :
  verified_page_token (lit "/w==") = Raise (HTTPException 403 None).
Proof. reflexivity. Qed.

(** C2 as first stated, for every non-empty token, fails on a token that
    [str.encode] refuses: a lone surrogate makes
    [generate_next_page_link] raise. *)
Lemma C2_unencodable_token_counterexample :
  ~ (forall base_url t : str, t <> [] ->
     exists value,
       generate_next_page_link base_url (Some t)
         = Return (Some (base_url ++ lit "api/events/filter/next"
                           ++ lit "?page-token=" ++ value)) /\
       verified_page_token value = Return t).
Proof.
  intros H. destruct (H [] [0xD800]) as (value & Hlink & _); [discriminate|].
  vm_compute in Hlink. discriminate.
Qed.

Lemma C2_page_token_round_trip_witness :
  generate_next_page_link (lit "http://host/") (Some (lit "next"))
    = Return (Some (lit "http://host/api/events/filter/next?page-token=bmV4dA=="))
  /\ verified_page_token (lit "bmV4dA==") = Return (lit "next").
Proof.
  apply (proj1 (C2_page_token_round_trip (lit "http://host/"))
           (lit "next") (lit "next")).
  - discriminate.
  - reflexivity.
Defined.

Lemma C4_invalid_count_parameters_unprocessable_witness :
  snd (handle_event_count_request (B := sample_backend) tt tt tt float_1_0)
    = Raise (HTTPException 422 (Some (lit "invalid time interval"))) /\
  post_events_count_by (B := sample_backend) tt tt None
    (Some (S754_finite false 0x10000000000000 (-60)))
    = ([], Raise RequestValidationError).
Proof.
  destruct (C4_invalid_count_parameters_unprocessable
              (B := sample_backend) tt tt) as (H1 & _ & H3).
  split.
  - apply H1. reflexivity.
  - apply (H3 None). reflexivity.
Defined.

Lemma C6_stream_events_in_session_witness :
  stream_events_in (B := sample_backend) [lit "a"; lit "b"] AbnormalDisconnect
  = ([WsAccept; PublisherOpen;
      WsRecvText (lit "a"); Publish (B := sample_backend) (lit "a");
      WsRecvText (lit "b"); Publish (B := sample_backend) (lit "b");
      WsClosed true; PublisherClose],
     Return tt).
Proof.
  apply (C6_stream_events_in_session (B := sample_backend)
           [lit "a"; lit "b"] [lit "a"; lit "b"] AbnormalDisconnect).
  repeat constructor.
Defined.

Lemma C7_read_events_limit_capped_witness :
  post_events_filter (B := sample_backend) (lit "http://host/") None (Some 51)
    = ([], Raise RequestValidationError) /\
  (forall f n,
     In (QueryEvents f n)
        (fst (post_events_filter (B := sample_backend) (lit "http://host/")
                None (Some 7))) ->
     n <= 50).
Proof.
  destruct (C7_read_events_limit_capped (B := sample_backend)
              (lit "http://host/") None) as (H1 & _ & _ & H4).
  split.
  - apply H1. cbn. lia.
  - intros f n. apply H4.
Defined.

Lemma X1_stream_events_in_malformed_frame_witness :
  stream_events_in (B := sample_backend) [lit "a"; []; lit "c"] NormalDisconnect
  = ([WsAccept; PublisherOpen;
      WsRecvText (lit "a"); Publish (B := sample_backend) (lit "a");
      WsRecvText []; PublisherClose],
     Raise ValidationError).
Proof.
  apply (X1_stream_events_in_malformed_frame (B := sample_backend)
           [lit "a"] [lit "a"] [] [lit "c"] NormalDisconnect).
  - repeat constructor.
  - reflexivity.
Defined.

Lemma X4_next_page_link_failure_witness :
  generate_next_page_link (lit "http://host/") (Some [0xD800])
  = Raise UnicodeEncodeError.
Proof.
  apply (X4_next_page_link_failure (lit "http://host/") (Some [0xD800])
           UnicodeEncodeError).
  split; [reflexivity|]. exists [0xD800].
  split; [reflexivity|]. split; [discriminate | reflexivity].
Defined.

End EventsFacts.

(** ** Automation actions *)

Module ActionsFacts.
Import Actions.
#[local] Open Scope string_scope.



End ActionsFacts.

(** ** Model subclassing *)

Module SchemasFacts.
Import Schemas.
#[local] Open Scope string_scope.

Section WithField.
Context {ModelField : Type}.
Implicit Types (h : classes ModelField) (b : BaseModel ModelField).

Lemma filter_ext_in_fields (P Q : string * ModelField -> Prop)
    `{!forall x, Decision (P x)} `{!forall x, Decision (Q x)}
    (l : list (string * ModelField)) :
  (forall x, x ∈ l -> P x <-> Q x) -> filter P l = filter Q l.
Proof.
  induction l as [|x l IH]; intros Hext; [reflexivity|].
  rewrite !filter_cons.
  assert (Hx : P x <-> Q x) by (apply Hext; left).
  rewrite IH by (intros y Hy; apply Hext; right; exact Hy).
  destruct (decide (P x)), (decide (Q x)); tauto.
Qed.

(** What [subclass_model] does: it leaves every class it was given as it
    was, the base included, and the class it returns is a new one whose
    fields are the base's fields, in the base's order, restricted to
    [include] (all of them when [include] is [None] or empty) minus
    [exclude]. *)
Theorem subclass_model_restores_base h base b name include exclude :
  h !! base = Some b ->
  exists new_cls h' c,
    subclass_model base name include exclude h = Some (new_cls, h') /\
    h' !! base = Some b /\
    h !! new_cls = None /\
    (forall other, other <> new_cls -> h' !! other = h !! other) /\
    h' !! new_cls = Some c /\
    __fields__ c
      = filter (fun kv => kept include exclude kv.1) (__fields__ b).
Proof.
  intros Hb. unfold subclass_model, create_model. rewrite Hb. cbn.
  set (names := _ ∖ _).
  set (h1 := alter _ base h).
  assert (Hh1 : h1 !! base
                = Some (set_fields (filter (fun kv => kv.1 ∈ names)
                                      (__fields__ b)) b)).
  { unfold h1. rewrite lookup_alter_eq, Hb. reflexivity. }
  rewrite Hh1. cbn.
  set (new_cls := fresh (dom h1)).
  assert (Hfresh : h1 !! new_cls = None).
  { apply not_elem_of_dom. apply is_fresh. }
  assert (Hne : new_cls <> base).
  { intros ->. rewrite Hh1 in Hfresh. discriminate. }
  assert (Hnew : h !! new_cls = None).
  { unfold h1 in Hfresh. rewrite lookup_alter_ne in Hfresh by auto.
    exact Hfresh. }
  eexists new_cls, _, _. split; [reflexivity|].
  repeat split.
  - rewrite lookup_alter_eq, lookup_insert_ne, Hh1 by auto. cbn.
    destruct b; reflexivity.
  - exact Hnew.
  - intros other Ho.
    destruct (decide (other = base)) as [->|Hob].
    + rewrite lookup_alter_eq, lookup_insert_ne, Hh1, Hb by auto.
      cbn. destruct b; reflexivity.
    + rewrite lookup_alter_ne, lookup_insert_ne by auto.
      unfold h1. rewrite lookup_alter_ne by auto. reflexivity.
  - rewrite lookup_alter_ne, lookup_insert_eq by auto. reflexivity.
  - cbn. apply filter_ext_in_fields. intros [k v] Hk. cbn.
    unfold names, kept. rewrite elem_of_difference, !elem_of_list_to_set.
    assert (Hkeys : k ∈ (__fields__ b).*1).
    { apply list_elem_of_fmap. exists (k, v). auto. }
    destruct include as [[|i l]|], exclude as [[|e l']|]; cbn;
      rewrite ?elem_of_nil; tauto.
Qed.


End WithField.

(** The example of the docstring: [Child = subclass_model(Parent, 'Child',
    exclude=['y'])] has [x] and not [y], and [Parent] is as before. *)
Example subclass_model_docstring_example :
  exists new_cls h' c,
    subclass_model 1%positive (Some "Child") None (Some ["y"])
      {[ 1%positive := Parent ]} = Some (new_cls, h') /\
    h' !! 1%positive = Some Parent /\
    h' !! new_cls = Some c /\
    __fields__ c = [("x", 1)].
Proof.
  destruct (subclass_model_restores_base
              ({[ 1%positive := Parent ]} : classes Z) 1%positive Parent
              (Some "Child") None (Some ["y"]))
    as (new_cls & h' & c & H1 & H2 & _ & _ & H5 & H6).
  - reflexivity.
  - exists new_cls, h', c. repeat split; assumption.
Qed.

(** C9. The frame part holds (see [subclass_model_restores_base]); the
    fields of the returned class are not always the base's fields
    restricted to [include]: with [include=[]] the subclass of [Parent]
    keeps both [x] and [y], where restricting to the empty list leaves no
    field. *)
Lemma C9_empty_include_keeps_every_field :
  exists new_cls h' c,
    subclass_model 1%positive (Some "Child") (Some []) None
      {[ 1%positive := Parent ]} = Some (new_cls, h') /\
    h' !! 1%positive = Some Parent /\
    h' !! new_cls = Some c /\
    __fields__ c = [("x", 1); ("y", 2)] /\
    filter (fun kv => kept_as_stated (Some []) None kv.1) (__fields__ Parent)
      = [].
Proof.
  destruct (subclass_model_restores_base
              ({[ 1%positive := Parent ]} : classes Z) 1%positive Parent
              (Some "Child") (Some []) None)
    as (new_cls & h' & c & H1 & H2 & _ & _ & H5 & H6).
  - reflexivity.
  - exists new_cls, h', c. repeat split; assumption || reflexivity.
Qed.


End SchemasFacts.

(** ** The block cipher *)

Module AESFacts.
Import AES.

(** *** Bytes, case by case *)

Lemma byte_in_range x : is_byte x -> In x byte_range.
Proof.
  unfold is_byte, byte_range. intros Hx. apply in_map_iff.
  exists (Z.to_nat x). split; [lia|]. apply in_seq. lia.
Qed.

Lemma byte_cases (p : Z -> bool) :
  forallb p byte_range = true -> forall x, is_byte x -> p x = true.
Proof.
  intros H x Hx. rewrite forallb_forall in H. apply H, byte_in_range, Hx.
Qed.

Lemma byte_cases2 (p : Z -> Z -> bool) :
  forallb (fun x => forallb (p x) byte_range) byte_range = true ->
  forall x y, is_byte x -> is_byte y -> p x y = true.
Proof.
  intros H x y Hx Hy.
  apply (byte_cases (p x)); [|exact Hy].
  apply (byte_cases (fun x => forallb (p x) byte_range)); assumption.
Qed.

Lemma byteb_is_byte x : byteb x = true -> is_byte x.
Proof. unfold byteb, is_byte. intros H. apply andb_true_iff in H. lia. Qed.

(** A function of a byte maps bytes to bytes. *)
Lemma byte_fun_is_byte (f : Z -> Z) :
  forallb (fun x => byteb (f x)) byte_range = true ->
  forall x, is_byte x -> is_byte (f x).
Proof.
  intros H x Hx. apply byteb_is_byte.
  exact (byte_cases (fun x => byteb (f x)) H x Hx).
Qed.

(** Two functions of a byte agree. *)
Lemma byte_fun_eq (f g : Z -> Z) :
  forallb (fun x => f x =? g x) byte_range = true ->
  forall x, is_byte x -> f x = g x.
Proof.
  intros H x Hx. apply Z.eqb_eq.
  exact (byte_cases (fun x => f x =? g x) H x Hx).
Qed.

Ltac all_bytes := vm_compute; reflexivity.

Lemma lxor_is_byte a b : is_byte a -> is_byte b -> is_byte (Z.lxor a b).
Proof.
  unfold is_byte. intros Ha Hb.
  assert (H0 : 0 <= Z.lxor a b) by (apply Z.lxor_nonneg; lia).
  split; [exact H0|].
  destruct (Z.eq_dec (Z.lxor a b) 0) as [->|Hn]; [lia|].
  change 256 with (2 ^ 8). apply Z.log2_lt_pow2; [lia|].
  pose proof (Z.log2_lxor a b ltac:(lia) ltac:(lia)) as Hl.
  assert (Z.log2 a < 8).
  { destruct (Z.eq_dec a 0) as [->|]; [cbn; lia|].
    apply Z.log2_lt_pow2; [lia|]. change (2 ^ 8) with 256. lia. }
  assert (Z.log2 b < 8).
  { destruct (Z.eq_dec b 0) as [->|]; [cbn; lia|].
    apply Z.log2_lt_pow2; [lia|]. change (2 ^ 8) with 256. lia. }
  lia.
Qed.

Lemma zero_is_byte : is_byte 0.
Proof. unfold is_byte. lia. Qed.

(** A list written out, element by element. *)
Ltac each_element := repeat apply Forall_cons_2; try apply Forall_nil_2.

(** *** The S-box *)

Lemma sbox_is_byte x : is_byte x -> is_byte (sbox x).
Proof. apply byte_fun_is_byte. all_bytes. Qed.

Lemma inv_sbox_sbox x : is_byte x -> inv_sbox (sbox x) = x.
Proof. apply (byte_fun_eq (fun x => inv_sbox (sbox x)) (fun x => x)). all_bytes. Qed.

(** *** The field *)

Lemma xtime_is_byte x : is_byte x -> is_byte (xtime x).
Proof. apply byte_fun_is_byte. all_bytes. Qed.

Create HintDb bytes.
#[local] Hint Resolve xtime_is_byte lxor_is_byte zero_is_byte : bytes.

Lemma gf_mul_bits_is_byte n : forall a b, is_byte b -> is_byte (gf_mul_bits n a b).
Proof.
  induction n as [|n IH]; intros a b Hb; cbn [gf_mul_bits]; [apply zero_is_byte|].
  apply lxor_is_byte; [destruct (Z.odd a)|]; auto with bytes.
Qed.

Lemma gf_mul_is_byte a b : is_byte b -> is_byte (gf_mul a b).
Proof. apply gf_mul_bits_is_byte. Qed.

#[local] Hint Resolve gf_mul_is_byte : bytes.

(** Equalities between sums of the same terms. *)
Ltac lxor_shuffle :=
  apply Z.bits_inj'; intros ? _; rewrite !Z.lxor_spec, ?Z.bits_0; btauto.

(** The product distributes over the sum. *)
Lemma xtime_lxor x y :
  is_byte x -> is_byte y -> xtime (Z.lxor x y) = Z.lxor (xtime x) (xtime y).
Proof.
  intros Hx Hy. apply Z.eqb_eq.
  apply (byte_cases2 (fun x y => xtime (Z.lxor x y) =? Z.lxor (xtime x) (xtime y)));
    [all_bytes | exact Hx | exact Hy].
Qed.

Lemma gf_mul_bits_lxor n :
  forall a x y, is_byte x -> is_byte y ->
  gf_mul_bits n a (Z.lxor x y)
  = Z.lxor (gf_mul_bits n a x) (gf_mul_bits n a y).
Proof.
  induction n as [|n IH]; intros a x y Hx Hy; cbn [gf_mul_bits]; [reflexivity|].
  rewrite xtime_lxor, IH by auto with bytes.
  destruct (Z.odd a); lxor_shuffle.
Qed.

Lemma gf_mul_sum4 c a0 a1 a2 a3 :
  is_byte a0 -> is_byte a1 -> is_byte a2 -> is_byte a3 ->
  gf_mul c (sum4 a0 a1 a2 a3)
  = sum4 (gf_mul c a0) (gf_mul c a1) (gf_mul c a2) (gf_mul c a3).
Proof.
  intros H0 H1 H2 H3. unfold sum4, gf_mul.
  rewrite !gf_mul_bits_lxor by auto with bytes. reflexivity.
Qed.

(** The sum of four rows of four terms is the sum of the four columns. *)
Lemma sum4_transpose r00 r01 r02 r03 r10 r11 r12 r13
                     r20 r21 r22 r23 r30 r31 r32 r33 :
  sum4 (sum4 r00 r01 r02 r03) (sum4 r10 r11 r12 r13)
       (sum4 r20 r21 r22 r23) (sum4 r30 r31 r32 r33)
  = sum4 (sum4 r00 r10 r20 r30) (sum4 r01 r11 r21 r31)
         (sum4 r02 r12 r22 r32) (sum4 r03 r13 r23 r33).
Proof. unfold sum4. lxor_shuffle. Qed.

Lemma sum4_is_byte a b c d :
  is_byte a -> is_byte b -> is_byte c -> is_byte d -> is_byte (sum4 a b c d).
Proof. unfold sum4. auto with bytes. Qed.

#[local] Hint Resolve sum4_is_byte : bytes.

(** *** MixColumns *)

(** One term of the product of the two matrices, as a function of the byte
    of the column it multiplies: it is that byte on the diagonal and zero
    elsewhere, which is checked on the 256 bytes. *)
Ltac column_term c a Ha :=
  first
    [ replace c with a
        by (symmetry; revert Ha; pattern a;
            match goal with
            | |- (fun x => is_byte x -> @?f x = @?g x) _ =>
                cbv beta; apply (byte_fun_eq f g); all_bytes
            end)
    | replace c with 0
        by (symmetry; revert Ha; pattern a;
            match goal with
            | |- (fun x => is_byte x -> @?f x = @?g x) _ =>
                cbv beta; apply (byte_fun_eq f g); all_bytes
            end) ].

Lemma inv_mix_column_mix_column a0 a1 a2 a3 :
  is_byte a0 -> is_byte a1 -> is_byte a2 -> is_byte a3 ->
  inv_mix_column
    (sum4 (gf_mul 2 a0) (gf_mul 3 a1) a2 a3)
    (sum4 a0 (gf_mul 2 a1) (gf_mul 3 a2) a3)
    (sum4 a0 a1 (gf_mul 2 a2) (gf_mul 3 a3))
    (sum4 (gf_mul 3 a0) a1 a2 (gf_mul 2 a3))
  = [a0; a1; a2; a3].
Proof.
  intros H0 H1 H2 H3. unfold inv_mix_column.
  repeat f_equal;
    rewrite !gf_mul_sum4 by auto with bytes; rewrite sum4_transpose;
    match goal with
    | |- sum4 ?c0 ?c1 ?c2 ?c3 = _ =>
        column_term c0 a0 H0; column_term c1 a1 H1;
        column_term c2 a2 H2; column_term c3 a3 H3
    end;
    unfold sum4; rewrite ?Z.lxor_0_r, ?Z.lxor_0_l; reflexivity.
Qed.

(** *** The state *)

Lemma list_ind4 {A} (P : list A -> Prop) :
  (forall l, (length l < 4)%nat -> P l) ->
  (forall a b c d l, P l -> P (a :: b :: c :: d :: l)) ->
  forall l, P l.
Proof.
  intros Hsmall Hstep.
  assert (H : forall n l, (length l <= n)%nat -> P l).
  { induction n as [|n IH]; intros l Hl.
    - apply Hsmall. lia.
    - destruct l as [|a [|b [|c [|d l]]]]; try (apply Hsmall; simpl; lia).
      apply Hstep, IH. simpl in Hl. lia. }
  intros l. apply (H (length l)). lia.
Qed.

Lemma lxor_zip_cancel (a b : list Z) :
  length a = length b -> zip_with Z.lxor (zip_with Z.lxor a b) b = a.
Proof.
  revert b.
  induction a as [|x a IH]; intros [|y b] Hl; try discriminate;
    [reflexivity|].
  cbn. rewrite IH by (simpl in Hl; lia).
  rewrite Z.lxor_assoc, Z.lxor_nilpotent, Z.lxor_0_r. reflexivity.
Qed.

Lemma lxor_zip_bytes (a b : list Z) :
  Forall is_byte a -> Forall is_byte b -> Forall is_byte (zip_with Z.lxor a b).
Proof.
  intros Ha. revert b.
  induction Ha as [|x a Hx _ IH]; intros b Hb; [constructor|].
  destruct Hb as [|y b Hy Hb]; [constructor|].
  cbn. constructor; [apply lxor_is_byte; assumption | apply IH, Hb].
Qed.

Lemma AddRoundKey_is_state s k :
  is_state s -> is_state k -> is_state (AddRoundKey s k).
Proof.
  unfold is_state, AddRoundKey. intros [Ls Hs] [Lk Hk]. split.
  - rewrite length_zip_with. lia.
  - apply lxor_zip_bytes; assumption.
Qed.

Lemma AddRoundKey_cancel s k :
  is_state s -> is_state k -> AddRoundKey (AddRoundKey s k) k = s.
Proof.
  intros [Ls _] [Lk _]. apply lxor_zip_cancel. congruence.
Qed.

Lemma SubBytes_is_state s : is_state s -> is_state (SubBytes s).
Proof.
  unfold is_state, SubBytes. intros [Ls Hs]. split.
  - rewrite length_map. exact Ls.
  - apply Forall_map. eapply Forall_impl; [exact Hs|]. apply sbox_is_byte.
Qed.

Lemma InvSubBytes_SubBytes s : is_state s -> InvSubBytes (SubBytes s) = s.
Proof.
  unfold InvSubBytes, SubBytes. intros [_ Hs]. rewrite map_map.
  rewrite <- (map_id s) at 2. apply map_ext_Forall.
  eapply Forall_impl; [exact Hs|]. apply inv_sbox_sbox.
Qed.

(** A block, byte by byte. *)
Ltac sixteen s Hs :=
  destruct Hs as [Hlen Hbytes];
  do 16 (destruct s as [|? s]; [discriminate Hlen|]);
  destruct s; [clear Hlen | discriminate Hlen].

Lemma ShiftRows_is_state s : is_state s -> is_state (ShiftRows s).
Proof.
  intros Hs. sixteen s Hs. split; [reflexivity|].
  cbn [ShiftRows]. rewrite !Forall_cons in Hbytes |- *. tauto.
Qed.

Lemma InvShiftRows_ShiftRows s : is_state s -> InvShiftRows (ShiftRows s) = s.
Proof. intros Hs. sixteen s Hs. reflexivity. Qed.

Lemma mix_column_bytes a0 a1 a2 a3 :
  is_byte a0 -> is_byte a1 -> is_byte a2 -> is_byte a3 ->
  Forall is_byte (mix_column a0 a1 a2 a3).
Proof.
  intros H0 H1 H2 H3. unfold mix_column.
  each_element; auto with bytes.
Qed.

Lemma MixColumns_length s : length (MixColumns s) = length s.
Proof.
  unfold MixColumns. induction s as [l Hl|a b c d l IH] using list_ind4.
  - destruct l as [|a [|b [|c [|d l]]]]; try reflexivity. simpl in Hl. lia.
  - cbn [columns]. rewrite length_app, IH. reflexivity.
Qed.

Lemma MixColumns_bytes s : Forall is_byte s -> Forall is_byte (MixColumns s).
Proof.
  unfold MixColumns. induction s as [l Hl|a b c d l IH] using list_ind4.
  - destruct l as [|a [|b [|c [|d l]]]]; try (intros H; exact H).
    simpl in Hl. lia.
  - rewrite !Forall_cons. intros (Ha & Hb & Hc & Hd & Hl).
    cbn [columns]. apply Forall_app. split; [|apply IH, Hl].
    apply mix_column_bytes; assumption.
Qed.

Lemma MixColumns_is_state s : is_state s -> is_state (MixColumns s).
Proof.
  intros [Ls Hs]. split; [rewrite MixColumns_length; exact Ls|].
  apply MixColumns_bytes, Hs.
Qed.

Lemma InvMixColumns_MixColumns s :
  Forall is_byte s -> InvMixColumns (MixColumns s) = s.
Proof.
  unfold InvMixColumns, MixColumns.
  induction s as [l Hl|a b c d l IH] using list_ind4.
  - destruct l as [|a [|b [|c [|d l]]]]; try reflexivity. simpl in Hl. lia.
  - rewrite !Forall_cons. intros (Ha & Hb & Hc & Hd & Hl).
    cbn [columns]. unfold mix_column at 1. cbn [app columns].
    rewrite inv_mix_column_mix_column, IH by assumption. reflexivity.
Qed.

(** *** The rounds *)

Lemma rounds_last k s : rounds [k] s = AddRoundKey (ShiftRows (SubBytes s)) k.
Proof. reflexivity. Qed.

Lemma rounds_cons k k' ks s :
  rounds (k :: k' :: ks) s
  = rounds (k' :: ks) (AddRoundKey (MixColumns (ShiftRows (SubBytes s))) k).
Proof. reflexivity. Qed.

Lemma inv_rounds_last k s :
  inv_rounds [k] s = InvSubBytes (InvShiftRows (AddRoundKey s k)).
Proof. reflexivity. Qed.

Lemma inv_rounds_cons k k' ks s :
  inv_rounds (k :: k' :: ks) s
  = InvSubBytes (InvShiftRows (InvMixColumns
      (AddRoundKey (inv_rounds (k' :: ks) s) k))).
Proof. reflexivity. Qed.

Lemma inv_rounds_rounds (ks : list (list Z)) :
  Forall is_state ks -> forall s : list Z, is_state s ->
  is_state (rounds ks s) /\ inv_rounds ks (rounds ks s) = s.
Proof.
  induction ks as [|k ks IH]; intros Hks s Hs; [split; [exact Hs|reflexivity]|].
  apply Forall_cons in Hks as [Hk Hks]. specialize (IH Hks).
  pose proof (ShiftRows_is_state _ (SubBytes_is_state _ Hs)) as Hsr.
  destruct ks as [|k' ks].
  - rewrite rounds_last, inv_rounds_last.
    split; [apply AddRoundKey_is_state; assumption|].
    rewrite AddRoundKey_cancel, InvShiftRows_ShiftRows, InvSubBytes_SubBytes
      by (assumption || apply SubBytes_is_state; assumption).
    reflexivity.
  - rewrite rounds_cons, inv_rounds_cons.
    pose proof (MixColumns_is_state _ Hsr) as Hmc.
    destruct (IH _ (AddRoundKey_is_state _ _ Hmc Hk)) as [Hb ->].
    split; [exact Hb|].
    rewrite AddRoundKey_cancel by assumption.
    rewrite InvMixColumns_MixColumns by apply Hsr.
    rewrite InvShiftRows_ShiftRows, InvSubBytes_SubBytes
      by (assumption || apply SubBytes_is_state; assumption).
    reflexivity.
Qed.

Lemma InvCipher_Cipher (ks : list (list Z)) (b : list Z) :
  Forall is_state ks -> is_state b ->
  is_state (Cipher ks b) /\ InvCipher ks (Cipher ks b) = b.
Proof.
  intros Hks Hb. destruct ks as [|k0 ks]; [split; [exact Hb|reflexivity]|].
  apply Forall_cons in Hks as [Hk0 Hks].
  unfold Cipher, InvCipher.
  destruct (inv_rounds_rounds ks Hks _ (AddRoundKey_is_state _ _ Hb Hk0))
    as [Hr ->].
  split; [exact Hr|]. apply AddRoundKey_cancel; assumption.
Qed.

(** *** The key schedule *)

Lemma Rcon_is_byte j : is_byte (Rcon j).
Proof.
  induction j as [|j IH]; [apply zero_is_byte|].
  destruct j as [|j]; [unfold is_byte; simpl; lia|].
  change (Rcon (S (S j))) with (xtime (Rcon (S j))).
  apply xtime_is_byte, IH.
Qed.

Lemma xor_word_is_word a b : is_word a -> is_word b -> is_word (xor_word a b).
Proof.
  unfold is_word, xor_word. intros [La Ha] [Lb Hb]. split.
  - rewrite length_zip_with. lia.
  - apply lxor_zip_bytes; assumption.
Qed.

Lemma SubWord_is_word w : is_word w -> is_word (SubWord w).
Proof.
  unfold is_word, SubWord. intros [Lw Hw]. split.
  - rewrite length_map. exact Lw.
  - apply Forall_map. eapply Forall_impl; [exact Hw|]. apply sbox_is_byte.
Qed.

Lemma RotWord_is_word w : is_word w -> is_word (RotWord w).
Proof.
  unfold is_word. intros [Lw Hw].
  destruct w as [|b0 w]; [discriminate|]. cbn [RotWord]. split.
  - rewrite length_app. simpl in *. lia.
  - apply Forall_cons in Hw as [H0 Hw]. apply Forall_app. split; [exact Hw|].
    constructor; [exact H0 | constructor].
Qed.

Lemma words_are_words key : Forall is_byte key -> Forall is_word (words key).
Proof.
  induction key as [l Hl|a b c d l IH] using list_ind4.
  - destruct l as [|a [|b [|c [|d l]]]];
      [intros _; constructor .. | simpl in Hl; lia].
  - rewrite !Forall_cons. intros (Ha & Hb & Hc & Hd & Hl).
    cbn [words]. constructor; [|apply IH, Hl].
    split; [reflexivity|]. each_element; assumption.
Qed.

Lemma length_words key : length (words key) = (length key / 4)%nat.
Proof.
  induction key as [l Hl|a b c d l IH] using list_ind4.
  - rewrite Nat.div_small by exact Hl.
    destruct l as [|a [|b [|c [|d l]]]]; try reflexivity. simpl in Hl. lia.
  - cbn [words]. change (length (a :: b :: c :: d :: l))
      with (1 * 4 + length l)%nat.
    rewrite Nat.div_add_l by lia. cbn [length]. rewrite IH. reflexivity.
Qed.

Lemma expand_words Nk n :
  (0 < Nk)%nat ->
  forall i w,
    i = length w -> w <> [] -> Forall is_word w ->
    Forall is_word (expand Nk n i w).
Proof.
  intros HNk.
  induction n as [|n IH]; intros i w Hi Hne Hw; [exact Hw|].
  cbn [expand]. apply IH.
  - rewrite length_app. simpl. lia.
  - intros H. apply app_eq_nil in H as [_ H]. discriminate.
  - assert (Hpos : (0 < length w)%nat)
      by (destruct w; [contradiction | simpl; lia]).
    assert (Hnth : forall j, (j < length w)%nat -> is_word (nth j w []))
      by (intros j Hj; apply (proj1 (List.Forall_nth is_word w) Hw); exact Hj).
    apply Forall_app. split; [exact Hw|]. constructor; [|constructor].
    apply xor_word_is_word; [apply Hnth; lia|].
    assert (Htemp : is_word (nth (i - 1) w [])) by (apply Hnth; lia).
    destruct (Nat.eqb (i mod Nk) 0).
    + apply xor_word_is_word.
      * apply SubWord_is_word, RotWord_is_word, Htemp.
      * split; [reflexivity|].
        each_element; apply Rcon_is_byte || apply zero_is_byte.
    + destruct (Nat.ltb 6 Nk && Nat.eqb (i mod Nk) 4);
        [apply SubWord_is_word|]; exact Htemp.
Qed.

Lemma round_keys_blocks w : Forall is_word w -> Forall is_state (round_keys w).
Proof.
  induction w as [l Hl|a b c d l IH] using list_ind4.
  - destruct l as [|a [|b [|c [|d l]]]];
      [intros _; constructor .. | simpl in Hl; lia].
  - rewrite !Forall_cons.
    intros ([La Ha] & [Lb Hb] & [Lc Hc] & [Ld Hd] & Hl).
    cbn [round_keys]. constructor; [|apply IH, Hl]. split.
    + rewrite !length_app, La, Lb, Lc, Ld. reflexivity.
    + repeat (apply Forall_app; split); assumption.
Qed.

Lemma KeyExpansion_blocks key :
  (4 <= length key)%nat -> Forall is_byte key ->
  Forall is_state (KeyExpansion key).
Proof.
  intros Hlen Hkey. unfold KeyExpansion.
  apply round_keys_blocks, expand_words.
  - apply Nat.div_str_pos. lia.
  - symmetry. apply length_words.
  - destruct key as [|a [|b [|c [|d l]]]]; simpl in Hlen; try lia. discriminate.
  - apply words_are_words, Hkey.
Qed.

(** Under a key of at least one word, deciphering undoes enciphering. *)
Theorem decrypt_block_encrypt_block key b :
  (4 <= length key)%nat -> Forall is_byte key -> is_state b ->
  is_state (encrypt_block key b) /\
  decrypt_block key (encrypt_block key b) = b.
Proof.
  intros Hlen Hkey Hb. apply InvCipher_Cipher; [|exact Hb].
  apply KeyExpansion_blocks; assumption.
Qed.

(** *** Known answers

    The examples of FIPS 197: the product of section 4.2, the S-box of
    section 5.1.1, and the vectors of appendix C for the three key
    sizes. *)

Example gf_mul_57_83 : gf_mul 0x57 0x83 = 0xc1.
Proof. reflexivity. Qed.

Example sbox_53 : sbox 0x53 = 0xed /\ sbox 0 = 0x63.
Proof. split; reflexivity. Qed.

Lemma gf_inv_inverse x : is_byte x -> x <> 0 -> gf_mul x (gf_inv x) = 1.
Proof.
  intros Hx Hne.
  pose proof (byte_cases (fun x => (x =? 0) || (gf_mul x (gf_inv x) =? 1))
                ltac:(all_bytes) x Hx) as H.
  apply orb_true_iff in H. destruct H as [H|H]; lia.
Qed.

Example fips197_c1 :
  encrypt_block (fromhex "000102030405060708090a0b0c0d0e0f")
    (fromhex "00112233445566778899aabbccddeeff")
  = fromhex "69c4e0d86a7b0430d8cdb78070b4c55a".
Proof. vm_compute. reflexivity. Qed.

Example fips197_c2 :
  encrypt_block (fromhex "000102030405060708090a0b0c0d0e0f1011121314151617")
    (fromhex "00112233445566778899aabbccddeeff")
  = fromhex "dda97ca4864cdfe06eaf70a0ec0d7191".
Proof. vm_compute. reflexivity. Qed.

Example fips197_c3 :
  encrypt_block
    (fromhex "000102030405060708090a0b0c0d0e0f101112131415161718191a1b1c1d1e1f")
    (fromhex "00112233445566778899aabbccddeeff")
  = fromhex "8ea2b7ca516745bfeafc49904b496089".
Proof. vm_compute. reflexivity. Qed.

End AESFacts.

(** ** SHA-256 *)

Module SHA256Facts.
Import SHA256.

Lemma be_bytes_are_bytes x : Forall is_byte (be_bytes x).
Proof.
  unfold be_bytes.
  repeat apply Forall_cons_2; try apply Forall_nil_2; apply Z.mod_pos_bound; lia.
Qed.

Lemma digest_length msg : length (digest msg) = 32%nat.
Proof. reflexivity. Qed.

Lemma digest_bytes msg : Forall is_byte (digest msg).
Proof.
  unfold digest. repeat (apply Forall_app; split); apply be_bytes_are_bytes.
Qed.

(** The constants come out as FIPS 180-4 prints them, and the digests as
    [hashlib] gives them. *)
Example first_constants :
  hd 0 K = 0x428a2f98 /\ last K = Some 0xc67178f2 /\ length K = 64%nat /\
  h0 H0 = 0x6a09e667 /\ h7 H0 = 0x5be0cd19.
Proof. repeat split; reflexivity. Qed.

Example digest_abc :
  digest (lit "abc")
  = fromhex "ba7816bf8f01cfea414140de5dae2223b00361a396177a9cb410ff61f20015ad".
Proof. vm_compute. reflexivity. Qed.

Example digest_empty :
  digest []
  = fromhex "e3b0c44298fc1c149afbf4c8996fb92427ae41e4649b934ca495991b7852b855".
Proof. vm_compute. reflexivity. Qed.

(** A message of 56 bytes takes two blocks. *)
Example digest_two_blocks :
  digest (lit "abcdbcdecdefdefgefghfghighijhijkijkljklmklmnlmnomnopnopq")
  = fromhex "248d6a61d20638b8e5c026930c3e6039a33ce45964ff2167f6ecedd419db06c1".
Proof. vm_compute. reflexivity. Qed.

End SHA256Facts.

(** ** Encrypted pickles *)

Module SerializeFacts.
Import Serialize PyFacts.

Lemma xor_block_cancel a b :
  length a = length b -> xor_block (xor_block a b) b = a.
Proof. apply AESFacts.lxor_zip_cancel. Qed.

Lemma xor_block_is_block a b : is_block a -> is_block b -> is_block (xor_block a b).
Proof.
  unfold is_block, xor_block. intros [La Ha] [Lb Hb]. split.
  - rewrite length_zip_with. lia.
  - apply AESFacts.lxor_zip_bytes; assumption.
Qed.

Lemma key_size_accepted k :
  is_key k -> existsb (Nat.eqb (length k)) AES_key_size = true.
Proof.
  intros [Hk _]. apply existsb_exists. exists (length k).
  split; [exact Hk | apply Nat.eqb_refl].
Qed.

Section WithLibraries.
Context `{L : CryptoLib} `{P : Pickler} `{C : Config}.

Lemma cbc_encrypt_blocks_cons n key prev data :
  data <> [] ->
  cbc_encrypt_blocks (S n) key prev data
  = aes_encrypt_block key (xor_block (take AES_block_size data) prev)
    ++ cbc_encrypt_blocks n key
         (aes_encrypt_block key (xor_block (take AES_block_size data) prev))
         (drop AES_block_size data).
Proof. destruct data; [contradiction | reflexivity]. Qed.

Lemma cbc_decrypt_blocks_cons n key prev data :
  data <> [] ->
  cbc_decrypt_blocks (S n) key prev data
  = xor_block (aes_decrypt_block key (take AES_block_size data)) prev
    ++ cbc_decrypt_blocks n key (take AES_block_size data)
         (drop AES_block_size data).
Proof. destruct data; [contradiction | reflexivity]. Qed.

Lemma cbc_blocks_nil n key prev :
  cbc_encrypt_blocks n key prev [] = [] /\
  cbc_decrypt_blocks n key prev [] = [].
Proof. destruct n; split; reflexivity. Qed.

Lemma nonempty_of_length {A} (l : list A) n : length l = S n -> l <> [].
Proof. destruct l; [discriminate | discriminate]. Qed.

(** Chained decryption undoes chained encryption, whatever the fuel above
    the number of blocks. *)
Lemma cbc_decrypt_encrypt_blocks `{!CryptoLaws L} k :
  forall n key prev data,
    is_key key ->
    length data = (AES_block_size * k)%nat -> (k <= n)%nat ->
    Forall is_byte data -> is_block prev ->
    length (cbc_encrypt_blocks n key prev data) = length data /\
    Forall is_byte (cbc_encrypt_blocks n key prev data) /\
    forall m, (k <= m)%nat ->
      cbc_decrypt_blocks m key prev (cbc_encrypt_blocks n key prev data)
      = data.
Proof.
  unfold AES_block_size.
  induction k as [|k IH]; intros n key prev data Hkey Hlen Hn Hdata Hprev.
  - destruct data; [|simpl in Hlen; lia].
    destruct (cbc_blocks_nil n key prev) as [-> _].
    repeat split; [constructor|].
    intros m _. apply cbc_blocks_nil.
  - destruct n as [|n]; [lia|].
    assert (Hne : data <> []) by (apply (nonempty_of_length _ (15 + 16 * k)); lia).
    rewrite cbc_encrypt_blocks_cons by exact Hne. unfold AES_block_size.
    set (blk := take 16 data). set (rest := drop 16 data).
    assert (Hblk : is_block blk).
    { split; [unfold blk; rewrite length_take; unfold AES_block_size; lia|].
      apply Forall_take, Hdata. }
    assert (Hrest : length rest = (16 * k)%nat)
      by (unfold rest; rewrite length_drop; lia).
    set (c := aes_encrypt_block key (xor_block blk prev)).
    assert (Hc : is_block c)
      by (apply aes_encrypt_block_is_block; [|apply xor_block_is_block];
          assumption).
    destruct (IH n key c rest Hkey Hrest ltac:(lia) (Forall_drop _ _ _ Hdata) Hc)
      as (Hl & Hb & Hdec).
    destruct Hc as [Hclen Hcb]. unfold AES_block_size in Hclen.
    repeat split.
    + rewrite length_app, Hl, Hclen, Hrest. lia.
    + apply Forall_app. split; assumption.
    + intros m Hm. destruct m as [|m]; [lia|].
      rewrite cbc_decrypt_blocks_cons
        by (apply (nonempty_of_length _ (15 + length (cbc_encrypt_blocks n key c rest)));
            rewrite length_app; lia).
      unfold AES_block_size.
      rewrite take_app_length', drop_app_length' by (symmetry; exact Hclen).
      unfold c at 1. rewrite aes_decrypt_encrypt_block
        by (assumption || apply xor_block_is_block; assumption).
      rewrite xor_block_cancel
        by (destruct Hblk as [-> _], Hprev as [-> _]; reflexivity).
      rewrite Hdec by lia. apply take_drop.
Qed.

Lemma concat_replicate_singleton {A} n (x : A) :
  concat (replicate n [x]) = replicate n x.
Proof. induction n as [|n IH]; [reflexivity|]. cbn. rewrite IH. reflexivity. Qed.

(** The pad is between 1 and 32 long. *)
Lemma pad_amount (l : Z) : 1 <= 32 - l mod 32 <= 32.
Proof. pose proof (Z.mod_pos_bound l 32 ltac:(lia)). lia. Qed.

Lemma padded_bytes (k : bytes) (b : bytes) :
  Forall is_byte b ->
  exists n padded,
    1 <= n <= 32 /\
    n = 32 - Z.of_nat (length b) mod 32 /\
    _pad {| bs := 32; key := k |} (PBytes b) = PBytes padded /\
    padded = b ++ replicate (Z.to_nat n) n /\
    Forall is_byte padded /\
    exists q, length padded = (AES_block_size * q)%nat.
Proof.
  intros Hb. pose proof (pad_amount (Z.of_nat (length b))) as Hn.
  eexists _, _. split; [exact Hn|]. split; [reflexivity|].
  split; [unfold _pad; cbn [bs len]; rewrite concat_replicate_singleton;
          reflexivity|].
  split; [reflexivity|]. split.
  - apply Forall_app. split; [exact Hb|].
    apply Forall_replicate. unfold is_byte. lia.
  - rewrite length_app, length_replicate. unfold AES_block_size.
    exists (Z.to_nat ((Z.of_nat (length b) + (32 - Z.of_nat (length b) mod 32)) / 16)).
    apply Nat2Z.inj. rewrite Nat2Z.inj_add, Nat2Z.inj_mul, !Z2Nat.id; [|divmod_lia|lia].
    divmod_lia.
Qed.

Lemma pad_slices (l : list Z) (n : Z) :
  1 <= n ->
  let padded := l ++ concat (replicate (Z.to_nat n) [n]) in
  slice_from padded (Z.of_nat (length padded) - 1) = [n] /\
  slice_until padded (- n) = l /\
  Z.of_nat (length padded) - Z.of_nat (length l) = n.
Proof.
  intros Hn padded. subst padded. rewrite concat_replicate_singleton.
  unfold slice_from, slice_until.
  rewrite length_app, length_replicate.
  destruct (Z.ltb_spec (Z.of_nat (length l + Z.to_nat n) - 1) 0); [lia|].
  destruct (Z.ltb_spec (- n) 0); [|lia].
  replace (Z.to_nat (Z.of_nat (length l + Z.to_nat n) - 1))
    with (length l + (Z.to_nat n - 1))%nat by lia.
  replace (Z.to_nat (- n + Z.of_nat (length l + Z.to_nat n)))
    with (length l) by lia.
  rewrite drop_app_add, take_app_length, drop_replicate.
  replace (Z.to_nat n - (Z.to_nat n - 1))%nat with 1%nat by lia.
  repeat split; lia.
Qed.

(** [_unpad] strips what [_pad] appended. *)
Lemma unpad_pad (k : bytes) (s : pystring) :
  _unpad (_pad {| bs := 32; key := k |} s) = Return s /\
  1 <= len (_pad {| bs := 32; key := k |} s) - len s <= 32.
Proof.
  pose proof (pad_amount (len s)) as Hn.
  destruct s as [t|b]; cbn [_pad bs len _unpad] in *;
    unfold str, bytes, codepoint in *;
    [destruct (pad_slices t _ (proj1 Hn)) as (H1 & H2 & H3)
    |destruct (pad_slices b _ (proj1 Hn)) as (H1 & H2 & H3)];
    rewrite H1; cbn [ord mbind result_bind]; rewrite H2;
    (split; [reflexivity | lia]).
Qed.

Lemma nat_mod_16_of_multiple (n q : nat) :
  n = (AES_block_size * q)%nat -> Nat.eqb (n mod AES_block_size) 0 = true.
Proof.
  intros ->. apply Nat.eqb_eq. unfold AES_block_size.
  rewrite Nat.mul_comm. apply Nat.Div0.mod_mul.
Qed.

(** What [decrypt] makes of what [encrypt] made of a [bytes] value: its
    UTF-8 decoding. *)
Lemma decrypt_encrypt_bytes `{!CryptoLaws L} (k iv b : bytes) :
  is_key k -> is_block iv -> Forall is_byte b ->
  exists enc,
    encrypt {| bs := 32; key := k |} iv (PBytes b) = Return enc /\
    Forall is_ascii enc /\
    decrypt {| bs := 32; key := k |} (PBytes enc) = bytes_decode b.
Proof.
  intros Hk Hiv Hb.
  destruct (padded_bytes k b Hb) as (n & padded & Hn & Hneq & Hpad & Hpadded & Hpb & q & Hq).
  destruct (cbc_decrypt_encrypt_blocks q (length padded) k iv padded Hk Hq
              ltac:(unfold AES_block_size in Hq; lia) Hpb Hiv)
    as (Hl & Hct & Hdec).
  set (ct := cbc_encrypt_blocks (length padded) k iv padded) in *.
  assert (Hall : Forall is_byte (iv ++ ct))
    by (apply Forall_app; split; [apply Hiv | exact Hct]).
  destruct Hiv as [Hivlen Hivb].
  exists (b64encode (iv ++ ct)). split; [|split].
  - unfold encrypt. rewrite Hpad. unfold AES_new. cbn [key].
    rewrite (key_size_accepted k Hk), Hivlen, Nat.eqb_refl.
    cbn [andb mbind result_bind].
    unfold cbc_encrypt. cbn [mbind result_bind cbc_key cbc_iv].
    rewrite (nat_mod_16_of_multiple _ _ Hq). reflexivity.
  - apply b64encode_ascii, Hall.
  - unfold decrypt, b64decode_any.
    rewrite (b64decode_b64encode _ Hall). cbn [mbind result_bind key].
    assert (Htake : slice_until (iv ++ ct) (Z.of_nat AES_block_size) = iv).
    { unfold slice_until. cbn [Z.ltb Z.of_nat Z.compare AES_block_size].
      change (Z.to_nat (Z.of_nat 16)) with 16%nat.
      apply take_app_length'. symmetry. exact Hivlen. }
    assert (Hdrop : slice_from (iv ++ ct) (Z.of_nat AES_block_size) = ct).
    { unfold slice_from. cbn [Z.ltb Z.of_nat Z.compare AES_block_size].
      change (Z.to_nat (Z.of_nat 16)) with 16%nat.
      apply drop_app_length'. symmetry. exact Hivlen. }
    rewrite Htake, Hdrop.
    unfold AES_new. rewrite (key_size_accepted k Hk), Hivlen, Nat.eqb_refl.
    cbn [andb mbind result_bind].
    unfold cbc_decrypt. cbn [cbc_key cbc_iv].
    rewrite (nat_mod_16_of_multiple _ q) by (rewrite Hl; exact Hq).
    cbn [mbind result_bind].
    rewrite Hdec by (rewrite Hl; unfold AES_block_size in Hq; lia).
    rewrite <- Hpad.
    destruct (unpad_pad k (PBytes b)) as [-> _]. reflexivity.
Qed.

Lemma ascii_forallb (l : list Z) :
  Forall is_ascii l -> forallb (fun c => (0 <=? c) && (c <? 128)) l = true.
Proof.
  induction 1 as [|c l Hc _ IH]; [reflexivity|]. cbn. rewrite IH.
  unfold is_ascii in Hc.
  destruct (Z.leb_spec 0 c), (Z.ltb_spec c 128); lia || reflexivity.
Qed.

Lemma ascii_is_byte (l : list Z) : Forall is_ascii l -> Forall is_byte l.
Proof.
  intros H. eapply Forall_impl; [exact H|].
  unfold is_ascii, is_byte. intros x Hx. lia.
Qed.

Lemma deserialize_serialize `{!CryptoLaws L} obj encryption_key iv encoded :
  is_block iv ->
  utf8_encode (resolve_key encryption_key) = Some encoded ->
  picklable obj ->
  exists text,
    serialize obj encryption_key iv = Return text /\
    deserialize (PStr text) encryption_key = Return obj.
Proof.
  intros Hiv Hkey [Hbytes Hloads].
  pose proof (b64encode_ascii _ Hbytes) as Hpayload.
  unfold serialize, deserialize.
  destruct (resolve_key encryption_key) as [|c k'] eqn:Hk.
  - exists (b64encode (dumps obj)). cbn [mbind result_bind].
    unfold bytes_decode, str_encode.
    rewrite (utf8_decode_ascii _ Hpayload), (utf8_encode_ascii _ Hpayload).
    cbn. rewrite (b64decode_b64encode _ Hbytes). cbn. split; [reflexivity|].
    exact Hloads.
  - unfold AESCipher_init, str_encode. rewrite Hkey.
    cbn [or_raise mbind result_bind].
    destruct (decrypt_encrypt_bytes (sha256_digest encoded) iv
                (b64encode (dumps obj)) (sha256_digest_is_key encoded) Hiv
                (ascii_is_byte _ Hpayload))
      as (enc & Henc & Hascii & Hdec).
    exists enc. rewrite Henc. cbn [fmap result_fmap mbind result_bind].
    unfold bytes_decode at 1. rewrite (utf8_decode_ascii _ Hascii).
    cbn [or_raise]. split; [reflexivity|].
    rewrite (utf8_encode_ascii _ Hascii). cbn [or_raise fmap result_fmap mbind result_bind].
    rewrite Hdec. unfold bytes_decode. rewrite (utf8_decode_ascii _ Hpayload).
    cbn [or_raise fmap result_fmap mbind result_bind b64decode_any].
    rewrite (ascii_forallb _ Hpayload), (b64decode_b64encode _ Hbytes).
    exact Hloads.
Qed.

(** What [AESCipher(key)] builds. *)
Lemma AESCipher_init_inv `{!CryptoLaws L} k self :
  AESCipher_init k = Return self ->
  exists digest, self = {| bs := 32; key := digest |} /\ is_key digest.
Proof.
  unfold AESCipher_init. destruct (str_encode k) as [encoded|e];
    cbn [mbind result_bind]; [|discriminate].
  intros [= <-]. eexists. split; [reflexivity|]. apply sha256_digest_is_key.
Qed.

(** C8 (amended). For every cipher object [AESCipher(key)]: [_unpad] undoes
    [_pad] on every [str] and every [bytes] value, the pad being 1 to 32
    long; and [decrypt] applied to what [encrypt] returns for a [bytes]
    value [b] gives the text [b] decodes to as UTF-8. For every object the
    pickler can take and every key that [str.encode] accepts, given or
    configured, empty or not, [deserialize] gives back the object
    [serialize] was given. *)
Theorem C8_serialize_round_trip `{!CryptoLaws L} :
  (forall k self s,
     AESCipher_init k = Return self ->
     _unpad (_pad self s) = Return s /\
     1 <= len (_pad self s) - len s <= 32) /\
  (forall k self iv b,
     AESCipher_init k = Return self -> is_block iv -> Forall is_byte b ->
     exists enc,
       encrypt self iv (PBytes b) = Return enc /\
       decrypt self (PBytes enc) = bytes_decode b) /\
  (forall obj encryption_key iv encoded,
     is_block iv ->
     utf8_encode (resolve_key encryption_key) = Some encoded ->
     picklable obj ->
     exists text,
       serialize obj encryption_key iv = Return text /\
       deserialize (PStr text) encryption_key = Return obj).
Proof.
  split; [|split].
  - intros k self s Hself.
    destruct (AESCipher_init_inv k self Hself) as (digest & -> & _).
    apply unpad_pad.
  - intros k self iv b Hself Hiv Hb.
    destruct (AESCipher_init_inv k self Hself) as (digest & -> & Hk).
    destruct (decrypt_encrypt_bytes digest iv b Hk Hiv Hb)
      as (enc & H1 & _ & H2).
    eauto.
  - apply deserialize_serialize.
Qed.

(** X10. [_unpad] checks nothing: on an empty value [ord] raises
    [TypeError]; on any other it returns the value without its last [n]
    elements, [n] being the last element, whatever the elements before
    it are: nothing when [n] is 0 or exceeds the length. *)
Theorem X10_unpad_checks_nothing (l : list Z) (n : Z) :
  0 <= n ->
  _unpad (PBytes []) = Raise TypeError /\
  _unpad (PStr []) = Raise TypeError /\
  _unpad (PBytes (l ++ [n]))
  = Return (PBytes (if n =? 0 then []
                    else take (length l + 1 - Z.to_nat n) l)) /\
  _unpad (PStr (l ++ [n]))
  = Return (PStr (if n =? 0 then []
                  else take (length l + 1 - Z.to_nat n) l)).
Proof.
  intros Hn. split; [reflexivity|]. split; [reflexivity|].
  assert (Hlast : slice_from (l ++ [n]) (Z.of_nat (length (l ++ [n])) - 1)
                  = [n]).
  { unfold slice_from. rewrite length_app. cbn [length].
    destruct (Z.ltb_spec (Z.of_nat (length l + 1) - 1) 0); [lia|].
    replace (Z.to_nat (Z.of_nat (length l + 1) - 1)) with (length l) by lia.
    apply drop_app_length. }
  assert (Hcut : slice_until (l ++ [n]) (- n)
                 = if n =? 0 then []
                   else take (length l + 1 - Z.to_nat n) l).
  { unfold slice_until. rewrite length_app. cbn [length].
    destruct (Z.eqb_spec n 0) as [->|Hnz]; [reflexivity|].
    destruct (Z.ltb_spec (- n) 0); [|lia].
    replace (Z.to_nat (- n + Z.of_nat (length l + 1)))
      with (length l + 1 - Z.to_nat n)%nat by lia.
    apply take_app_le. lia. }
  unfold _unpad. cbn [len]. unfold str, bytes, codepoint in *.
  rewrite Hlast. cbn [ord mbind result_bind]. rewrite Hcut.
  split; reflexivity.
Qed.

Lemma slice_block {A} (l : list A) :
  slice_until l (Z.of_nat AES_block_size) = take 16 l /\
  slice_from l (Z.of_nat AES_block_size) = drop 16 l.
Proof. split; reflexivity. Qed.

(** X12. [decrypt] on input whose base64 decoding is not made of whole
    blocks, or is shorter than one, raises [ValueError]; on exactly one
    block, an initialization vector and nothing else, it raises
    [TypeError], from [_unpad]. *)
Theorem X12_decrypt_rejects_by_length `{!CryptoLaws L} (k : str)
    (self : AESCipher) (enc : pystring) (raw : bytes) :
  AESCipher_init k = Return self ->
  b64decode_any enc = Return raw ->
  ((length raw < 16)%nat \/ (length raw mod 16)%nat <> 0%nat ->
   decrypt self enc = Raise ValueError) /\
  (length raw = 16%nat -> decrypt self enc = Raise TypeError).
Proof.
  intros Hself Hraw.
  destruct (AESCipher_init_inv k self Hself) as (digest & -> & Hk).
  unfold decrypt. rewrite Hraw. cbn [mbind result_bind key].
  destruct (slice_block raw) as [-> ->].
  unfold AES_new. rewrite (key_size_accepted digest Hk). cbn [andb].
  rewrite length_take. unfold AES_block_size. split.
  - intros Hlen.
    destruct (Nat.eqb_spec (16 `min` length raw) 16) as [Hmin|Hmin];
      [|reflexivity].
    cbn [mbind result_bind]. unfold cbc_decrypt, AES_block_size.
    rewrite length_drop.
    destruct (Nat.eqb_spec ((length raw - 16) mod 16) 0)
      as [Hm|Hm]; [|reflexivity].
    exfalso.
    destruct Hlen as [Hlen|Hlen]; [lia|]. apply Hlen.
    replace (length raw) with (length raw - 16 + 1 * 16)%nat by lia.
    rewrite Nat.Div0.mod_add. exact Hm.
  - intros Hlen. rewrite Hlen. cbn [Nat.min Nat.eqb mbind result_bind].
    unfold cbc_decrypt, AES_block_size. rewrite length_drop, Hlen.
    cbn [Nat.sub Nat.modulo Nat.eqb mbind result_bind].
    rewrite drop_ge by lia. reflexivity.
Qed.

(** X13. An empty key switches encryption off, whatever key is configured:
    [serialize(obj, '')] is the base64 text of the pickle and
    [deserialize] with the empty key reads it back. *)
Theorem X13_empty_key_is_no_key (obj : PyObject) (iv : bytes) :
  picklable obj ->
  serialize obj (Some []) iv = Return (b64encode (dumps obj)) /\
  deserialize (PStr (b64encode (dumps obj))) (Some []) = Return obj /\
  deserialize (PBytes (b64encode (dumps obj))) (Some []) = Return obj.
Proof.
  intros [Hbytes Hloads].
  pose proof (b64encode_ascii _ Hbytes) as Hpayload.
  unfold serialize, deserialize, resolve_key.
  cbn [default from_option id mbind result_bind].
  unfold bytes_decode, str_encode.
  rewrite (utf8_decode_ascii _ Hpayload), (utf8_encode_ascii _ Hpayload).
  cbn [or_raise fmap result_fmap mbind result_bind b64decode_any].
  rewrite (b64decode_b64encode _ Hbytes). cbn [mbind result_bind].
  split; [reflexivity|]. split; exact Hloads.
Qed.

End WithLibraries.

(** *** The libraries satisfy the laws *)

Lemma AES_key_is_long k : is_key k -> (4 <= length k)%nat.
Proof.
  intros [Hk _]. unfold AES_key_size in Hk. cbn [In] in Hk.
  destruct Hk as [<-|[<-|[<-|[]]]]; lia.
Qed.

Lemma AES_block_laws key b :
  is_key key -> is_block b ->
  is_block (AES.encrypt_block key b) /\
  AES.decrypt_block key (AES.encrypt_block key b) = b.
Proof.
  intros Hk Hb.
  apply AESFacts.decrypt_block_encrypt_block;
    [apply AES_key_is_long, Hk | apply Hk | exact Hb].
Qed.

Lemma SHA256_digest_is_key b : is_key (SHA256.digest b).
Proof.
  split; [|apply SHA256Facts.digest_bytes].
  rewrite SHA256Facts.digest_length. unfold AES_key_size. cbn [In]. tauto.
Qed.

#[local] Instance pycryptodome_laws : CryptoLaws pycryptodome.
Proof.
  split; cbn [sha256_digest aes_encrypt_block aes_decrypt_block pycryptodome].
  - apply SHA256_digest_is_key.
  - intros key b Hk Hb. apply AES_block_laws; assumption.
  - intros key b Hk Hb. apply AES_block_laws; assumption.
Qed.

#[local] Instance pycrypto_laws : CryptoLaws pycrypto.
Proof.
  split; cbn [sha256_digest aes_encrypt_block aes_decrypt_block pycrypto].
  - apply SHA256_digest_is_key.
  - intros key b Hk Hb. apply AES_block_laws; assumption.
  - intros key b Hk Hb. apply AES_block_laws; assumption.
Qed.

Lemma sample_iv_is_block : is_block sample_iv.
Proof. split; [reflexivity|]. apply Forall_replicate. unfold is_byte. lia. Qed.

Lemma C8_serialize_round_trip_witness :
  exists text,
    serialize (L := pycryptodome) (P := sample_pickler) (C := sample_config)
      (lit "flow") (Some (lit "secret")) sample_iv = Return text /\
    deserialize (L := pycryptodome) (P := sample_pickler) (C := sample_config)
      (PStr text) (Some (lit "secret")) = Return (lit "flow").
Proof.
  apply (proj2 (proj2 (C8_serialize_round_trip (L := pycryptodome)
                         (P := sample_pickler) (C := sample_config)))
           (lit "flow") (Some (lit "secret")) sample_iv (lit "secret")).
  - exact sample_iv_is_block.
  - reflexivity.
  - split; [|reflexivity]. cbn. repeat constructor; unfold is_byte; lia.
Defined.

(** C8 as first stated, with [decrypt(encrypt(s))] equal to [s] for every
    string, fails on [bytes] that are not UTF-8 text: [decrypt] ends in
    [.decode('utf-8')], which raises. *)
Lemma C8_decrypt_returns_text_counterexample :
  ~ (forall (L : CryptoLib), CryptoLaws L ->
     forall (k : str) (self : AESCipher) (iv : bytes) (s : pystring),
     AESCipher_init k = Return self -> is_block iv ->
     exists enc,
       encrypt self iv s = Return enc /\
       (PStr <$> decrypt self (PBytes enc)) = Return s).
Proof.
  intros H.
  destruct (H pycryptodome _ (lit "secret") _ sample_iv (PBytes [255])
              eq_refl sample_iv_is_block)
    as (enc & Henc & Hdec).
  vm_compute in Henc. injection Henc as <-.
  vm_compute in Hdec. discriminate.
Qed.

(** What [AESCipher('secret').encrypt(b'flow')] returns when the random
    initialization vector is sixteen bytes 7, and what [decrypt] makes of
    it. *)
Example encrypt_known_answer :
  (self ← AESCipher_init (L := pycryptodome) (lit "secret");
   encrypt (L := pycryptodome) self sample_iv (PBytes (lit "flow")))
  = Return
      (lit "BwcHBwcHBwcHBwcHBwcHB4MibCNkAJB/agoEl+mbg3LVotiy5xGvYaJJ0fWhzfAN").
Proof. vm_compute. reflexivity. Qed.

Example decrypt_known_answer :
  (self ← AESCipher_init (L := pycryptodome) (lit "secret");
   decrypt (L := pycryptodome) self
     (PBytes
        (lit "BwcHBwcHBwcHBwcHBwcHB4MibCNkAJB/agoEl+mbg3LVotiy5xGvYaJJ0fWhzfAN")))
  = Return (lit "flow").
Proof. vm_compute. reflexivity. Qed.

(** On text, [encrypt] depends on the cipher library: one that refuses
    [str] raises [TypeError], one that takes the UTF-8 bytes raises
    [ValueError] as soon as a character takes more than one byte, the pad
    being counted in characters. *)
Example encrypt_text_refused :
  (self ← AESCipher_init (L := pycryptodome) (lit "secret");
   encrypt (L := pycryptodome) self sample_iv (PStr [0xE9]))
  = Raise TypeError.
Proof. vm_compute. reflexivity. Qed.

Example encrypt_text_not_whole_blocks :
  (self ← AESCipher_init (L := pycrypto) (lit "secret");
   encrypt (L := pycrypto) self sample_iv (PStr [0xE9]))
  = Raise ValueError.
Proof. vm_compute. reflexivity. Qed.

Lemma X10_unpad_checks_nothing_witness :
  _unpad (PBytes (lit "flow" ++ [200])) = Return (PBytes []) /\
  _unpad (PBytes (lit "flow" ++ [2])) = Return (PBytes (lit "flo")).
Proof.
  split.
  - apply (X10_unpad_checks_nothing (lit "flow") 200). lia.
  - apply (X10_unpad_checks_nothing (lit "flow") 2). lia.
Defined.

Lemma X12_decrypt_rejects_by_length_witness :
  decrypt (L := pycryptodome)
    {| bs := 32; key := SHA256.digest (lit "secret") |}
    (PBytes (lit "BwcHBwcHBwcHBwcHBwcHBw==")) = Raise TypeError /\
  decrypt (L := pycryptodome)
    {| bs := 32; key := SHA256.digest (lit "secret") |}
    (PBytes (lit "BwcHBwcH")) = Raise ValueError.
Proof.
  split.
  - apply (X12_decrypt_rejects_by_length (L := pycryptodome) (lit "secret")
             {| bs := 32; key := SHA256.digest (lit "secret") |}
             (PBytes (lit "BwcHBwcHBwcHBwcHBwcHBw==")) sample_iv eq_refl eq_refl).
    reflexivity.
  - apply (X12_decrypt_rejects_by_length (L := pycryptodome) (lit "secret")
             {| bs := 32; key := SHA256.digest (lit "secret") |}
             (PBytes (lit "BwcHBwcH")) (replicate 6 7) eq_refl eq_refl).
    left. cbn. lia.
Defined.

Lemma X13_empty_key_is_no_key_witness :
  serialize (L := pycryptodome) (P := sample_pickler)
    (C := {| config_encryption_key := lit "secret" |})
    (lit "flow") (Some []) sample_iv = Return (lit "Zmxvdw==").
Proof.
  apply (X13_empty_key_is_no_key (L := pycryptodome) (P := sample_pickler)
           (C := {| config_encryption_key := lit "secret" |})
           (lit "flow") sample_iv).
  split; [|reflexivity]. cbn. repeat constructor; unfold is_byte; lia.
Defined.

End SerializeFacts.

(** ** Floats *)

Module Float64Facts.
Import Float64.

Lemma shl_pos n k : 0 < n -> 0 < shl n k.
Proof.
  intros Hn. unfold shl. destruct (Z.leb_spec 0 k); [|exact Hn].
  pose proof (Z.pow_pos_nonneg 2 k ltac:(lia) ltac:(lia)). nia.
Qed.









End Float64Facts.

(** ** The patched JSON codec *)

Module PatchJsonFacts.
Import Float64 Float64Facts PatchJson PyFacts.

Section WithRuntime.
Context `{R : Runtime}.

#[local] Abbreviation object := (pyobj datetime).
#[local] Abbreviation dict := (list (str * pyobj datetime)).




Lemma hook_datetime (s : str) :
  _default_object_hook [(lit "__datetime__", PyStr s)]
  = PyDatetime <$> dateutil_parse s.
Proof. reflexivity. Qed.

Lemma hook_timedelta (v : object) :
  _default_object_hook [(lit "__timedelta__", v)] = timedelta_of_seconds v.
Proof. reflexivity. Qed.













End WithRuntime.

(** *** The properties on the stand-in runtime *)


(** The float of the division agrees with the division of the standard
    library's binary64 on the timedelta of the counterexample. *)
Example total_seconds_200000_days :
  total_seconds 17280000000000001
  = SFdiv 53 1024 (S754_finite false 17280000000000001 0)
      (S754_finite false 1000000 0).
Proof. vm_compute. reflexivity. Qed.

(** The bound of [2 ^ 33] seconds is the first place where a microsecond
    is lost: one microsecond above it comes back as two. *)
Example timedelta_first_loss :
  round_trip (R := sample_runtime) (patch_json json_unpatched)
    (PyTimedelta (2 ^ 33 * 1000000 + 1))
  = Return (PyTimedelta (2 ^ 33 * 1000000 + 2)).
Proof. vm_compute. reflexivity. Qed.



End PatchJsonFacts.
